(** * ThrealPool: a shallow embedding of the thread-pool library

    The development follows the headers of [threadpool/include/libs]:

    - [taskqueue.h]   the mutex-guarded deque of tasks;
    - [workbranch.h]  one pool: worker map, counters, worker mission loop;
    - [supervisor.h]  the auto-scaling control loop;
    - [workspace.h]   the list of owned branches with its rotating cursor.

    Every member function that runs under a [std::lock_guard] is one atomic
    state transformer.  The worker mission loop is cut at every access to
    a shared member: the unlocked reads of [decline] and [m_is_waiting],
    the call of [try_pop], the blocks under the branch mutex and the waits
    on the condition variables; a worker thread is detached and goes on
    after it has left the worker map.  The threads of a branch are
    interleaved by an explicit schedule. *)

From stdpp Require Import base numbers option list gmap fin_sets.

#[local] Set Warnings "-clear-no-such-hyp".

Local Open Scope Z_scope.

(** ** Machine integers

    [size_t] is taken as 64 bits wide and [unsigned int] as 32 bits wide;
    arithmetic on both wraps around. *)

Definition SIZE_MAX : Z := 2 ^ 64 - 1.
Definition UINT_MAX : Z := 2 ^ 32 - 1.

Definition to_size_t (z : Z) : Z := z mod 2 ^ 64.
Definition to_uint (z : Z) : Z := z mod 2 ^ 32.

Definition in_size_t (z : Z) : Prop := 0 ≤ z ≤ SIZE_MAX.

(** ** taskqueue.h

    [std::deque<T> qu] is a list whose head is [qu.front()].  The mutex
    makes each member function atomic, so each is a function on the list. *)

Module TaskQueue.
Section queue.
Context {T : Type}.

Definition taskQueue := list T.

Definition push_back (v : T) (qu : taskQueue) : taskQueue := qu ++ [v].

Definition push_front (v : T) (qu : taskQueue) : taskQueue := v :: qu.

(** [bool try_pop(T &v)]: [Some front] stands for the result [true] with
    the front element moved into [v], [None] for the result [false] with
    [v] untouched; the second component is the queue after the call. *)
Definition try_pop (qu : taskQueue) : option T * taskQueue :=
  match qu with
  | front :: rest => (Some front, rest)
  | [] => (None, qu)
  end.

(** [qu.size()] *)
Definition getLength (qu : taskQueue) : Z := Z.of_nat (length qu).

(** A client of the queue: a sequence of calls.  The values handed out
    by successful [try_pop]s are collected in the order of the calls. *)
Inductive call :=
| PushBack (x : T)
| PushFront (x : T)
| TryPop.

Record client := Client { popped : list T; queue : taskQueue }.

Definition run_call (st : client) (c : call) : client :=
  match c with
  | PushBack x => Client (popped st) (push_back x (queue st))
  | PushFront x => Client (popped st) (push_front x (queue st))
  | TryPop =>
      match try_pop (queue st) with
      | (Some v, qu) => Client (popped st ++ [v]) qu
      | (None, qu) => Client (popped st) qu
      end
  end.

Definition run (cs : list call) (st : client) : client := foldl run_call st cs.

(** Popping until [try_pop] reports an empty queue (at most [fuel]
    times). *)
Fixpoint drain (fuel : nat) (qu : taskQueue) : list T :=
  match fuel with
  | O => []
  | S fuel' =>
      match try_pop qu with
      | (Some v, qu') => v :: drain fuel' qu'
      | (None, _) => []
      end
  end.

(** The two ends a value can be pushed at.  To follow values through the
    queue, a client can push each value together with the end it was
    pushed at. *)
Inductive side := Back | Front.

Definition same_side (a b : side) : bool :=
  match a, b with
  | Back, Back | Front, Front => true
  | _, _ => false
  end.
End queue.

Section tagged.
Context {V : Type}.

Definition tag (c : @call V) : @call (side * V) :=
  match c with
  | PushBack x => PushBack (Back, x)
  | PushFront x => PushFront (Front, x)
  | TryPop => TryPop
  end.

(** The values a sequence of calls pushes at one end, in call order. *)
Fixpoint pushed (s : side) (cs : list (@call V)) : list V :=
  match cs with
  | [] => []
  | PushBack x :: cs' => if same_side s Back then x :: pushed s cs' else pushed s cs'
  | PushFront x :: cs' => if same_side s Front then x :: pushed s cs' else pushed s cs'
  | TryPop :: cs' => pushed s cs'
  end.

(** The values of a list of tagged values that were pushed at one end. *)
Fixpoint of_side (s : side) (l : list (side * V)) : list V :=
  match l with
  | [] => []
  | (s', x) :: l' => if same_side s s' then x :: of_side s l' else of_side s l'
  end.

Definition pushes_only (cs : list (@call V)) : bool :=
  forallb (λ c, match c with TryPop => false | _ => true end) cs.
End tagged.

Section queue_end.
Context {T : Type}.
End queue_end.
Arguments taskQueue : clear implicits.
Arguments call : clear implicits.
Arguments client : clear implicits.
End TaskQueue.

(** ** Outcomes of a call

    A member function either returns, throws [std::runtime_error], stops
    the process on a failed [assert], or leaves defined behaviour (an
    iterator dereferenced at [end()]). *)

Inductive outcome (A : Type) : Type :=
| Returns (a : A)
| Throws
| Aborts
| Undefined.
Arguments Returns {A} a.
Arguments Throws {A}.
Arguments Aborts {A}.
Arguments Undefined {A}.

(** [assert(c); k]: with [NDEBUG] defined the assertion is compiled out. *)
Definition assert {A : Type} (ndebug : bool) (c : bool) (k : outcome A) : outcome A :=
  if ndebug then k else if c then k else Aborts.

(** ** workbranch.h *)

Module WorkBranch.

Inductive waitStrategy := lowlatancy | balance | blocking.

Definition is_blocking (s : waitStrategy) : bool :=
  match s with blocking => true | _ => false end.

(** [std::thread::id] *)
Definition tid := nat.

(** The four condition variables of a branch and the notifications sent
    to them. *)
Inductive condvar := thread_cv | task_done_cv | task_cv | waiting_finished.

Inductive signal :=
| notify_one (cv : condvar)
| notify_all (cv : condvar).

(** The task type tags of [utility.h]. *)
Inductive task_tag := normal | urgent | sequence.

Section branch.
(** [fn] stands for the callables handed to [submit]. *)
Context {fn : Type}.

(** What [submit] puts in the queue: the wrapper around one callable, or
    the wrapper that runs a whole sequence through [rexec]. *)
Inductive task_t :=
| wrapped (f : fn)
| rexec (fs : list fn).

(** The data members.  [workers] keeps the keys of the
    [std::map<worker::id, worker>]; the mapped [autoThread<detach>] is the
    handle of the thread with that id. *)
Record workbranch := Branch {
  workers : gset tid;
  tq : TaskQueue.taskQueue task_t;
  wait_strategy : waitStrategy;
  decline : Z;
  task_done_workers : Z;
  waiting_finished_worker : Z;
  m_is_waiting : bool;
  destructing : bool
}.

Definition max_spin_count : Z := 10000.

Definition set_workers (ws : gset tid) (b : workbranch) : workbranch :=
  Branch ws (tq b) (wait_strategy b) (decline b) (task_done_workers b)
         (waiting_finished_worker b) (m_is_waiting b) (destructing b).
Definition set_tq (q : TaskQueue.taskQueue task_t) (b : workbranch) : workbranch :=
  Branch (workers b) q (wait_strategy b) (decline b) (task_done_workers b)
         (waiting_finished_worker b) (m_is_waiting b) (destructing b).
Definition set_decline (d : Z) (b : workbranch) : workbranch :=
  Branch (workers b) (tq b) (wait_strategy b) d (task_done_workers b)
         (waiting_finished_worker b) (m_is_waiting b) (destructing b).
Definition set_task_done_workers (n : Z) (b : workbranch) : workbranch :=
  Branch (workers b) (tq b) (wait_strategy b) (decline b) n
         (waiting_finished_worker b) (m_is_waiting b) (destructing b).
Definition set_waiting_finished_worker (n : Z) (b : workbranch) : workbranch :=
  Branch (workers b) (tq b) (wait_strategy b) (decline b) (task_done_workers b)
         n (m_is_waiting b) (destructing b).
Definition set_is_waiting (w : bool) (b : workbranch) : workbranch :=
  Branch (workers b) (tq b) (wait_strategy b) (decline b) (task_done_workers b)
         (waiting_finished_worker b) w (destructing b).
Definition set_destructing (d : bool) (b : workbranch) : workbranch :=
  Branch (workers b) (tq b) (wait_strategy b) (decline b) (task_done_workers b)
         (waiting_finished_worker b) (m_is_waiting b) d.

(** [if (wait_strategy == waitStrategy::blocking) task_cv.notify_xxx()] *)
Definition when_blocking (b : workbranch) (s : signal) : list signal :=
  if is_blocking (wait_strategy b) then [s] else [].

(** [workers.size()] and [tq.getLength()] *)
Definition num_workers (b : workbranch) : Z := Z.of_nat (size (workers b)).
Definition num_tasks (b : workbranch) : Z := TaskQueue.getLength (tq b).

(** The id of the thread started by [std::thread t(&workbranch::mission,
    this)]: it differs from the id of every thread that is still in the
    map. *)
Definition new_thread_id (b : workbranch) : tid := fresh (workers b).

(** [workers.emplace(t.get_id(), std::move(t))] *)
Definition add_worker (b : workbranch) : workbranch :=
  set_workers ({[new_thread_id b]} ∪ workers b) b.

(** [del_worker()]: how the call ends, the branch after the call, and
    the notifications it sent. *)
Definition del_worker (b : workbranch) : outcome unit * workbranch * list signal :=
  if decide (workers b = ∅) then (Throws, b, [])
  else
    let b' := set_decline (to_size_t (decline b + 1)) b in
    (Returns (), b', when_blocking b' (notify_one task_cv)).

(** The member initialisers of the class. *)
Definition initial (strategy : waitStrategy) : workbranch :=
  Branch ∅ [] strategy 0 0 0 false false.

(** [workbranch(int wks, waitStrategy strategy)]: the loop
    [for (int i = 0; i < std::max(wks, 1); ++i) add_worker();] runs its
    body [max(wks, 1)] times. *)
Definition new (wks : Z) (strategy : waitStrategy) : workbranch :=
  Nat.iter (Z.to_nat (Z.max wks 1)) add_worker (initial strategy).

(** [submit<T>(task)] and [submit<sequence>(task, tasks...)].  For
    [normal] and [urgent] the overloads take one callable, and [fs] is
    empty; the [std::future] overloads enqueue in the same way. *)
Definition submit (T : task_tag) (f : fn) (fs : list fn) (b : workbranch)
  : workbranch * list signal :=
  let b' :=
    match T with
    | normal => set_tq (TaskQueue.push_back (wrapped f) (tq b)) b
    | urgent => set_tq (TaskQueue.push_front (wrapped f) (tq b)) b
    | sequence => set_tq (TaskQueue.push_back (rexec (f :: fs)) (tq b)) b
    end in
  (b', when_blocking b' (notify_one task_cv)).

(** [~workbranch()] up to its wait on [thread_cv], and the predicate
    [!decline] of that wait. *)
Definition destructor_enter (b : workbranch) : workbranch * list signal :=
  let b' := set_destructing true (set_decline (Z.of_nat (size (workers b))) b) in
  (b', when_blocking b' (notify_all task_cv)).

Definition destructor_may_return (b : workbranch) : bool := decline b =? 0.

(** *** The worker threads

    Where a thread running [mission] stands.  The loop is cut at every
    access to a shared member: the unlocked reads of [decline] and
    [m_is_waiting], the call of [tq.try_pop], the run of a task, and the
    blocks under [lok].  A block under [lok] is one step when the thread
    keeps [lok] to its end; the wait on [task_cv] is cut between the
    evaluation of its predicate, which reads the queue that [submit]
    changes without [lok], and the moment the thread is asleep. *)
Inductive pc :=
| LoopHead (spin_count : Z)      (* about to read [decline <= 0] *)
| Popping (spin_count : Z)       (* about to call [tq.try_pop(task)] *)
| Executing (task : task_t)      (* about to run [task()] *)
| CheckDecline (spin_count : Z)  (* about to read [decline > 0] *)
| Retiring (spin_count : Z)      (* about to take [lok] and test [decline] again *)
| Leaving                        (* out of the block and of [lok]; returning, the detached thread ends *)
| CheckWaiting (spin_count : Z)  (* about to read [m_is_waiting] *)
| Reporting (spin_count : Z)     (* about to take [lok] and report idle *)
| Parked (spin_count : Z)        (* inside [thread_cv.wait] *)
| Blocking (spin_count : Z)      (* about to take [lok] and evaluate the predicate of [task_cv.wait] *)
| Dozing (spin_count : Z)        (* predicate false, [lok] held, about to sleep *)
| Blocked (spin_count : Z)       (* asleep inside [task_cv.wait] *)
| Exited.                        (* the thread has ended *)

(** The thread is still in the loop of [mission]: it has not gone through
    the block in which it erases itself from the worker map. *)
Definition alive (c : pc) : bool :=
  match c with Leaving | Exited => false | _ => true end.

(** The thread has not ended. *)
Definition running (c : pc) : bool :=
  match c with Exited => false | _ => true end.

Definition is_blocked (c : pc) : bool :=
  match c with Blocked _ => true | _ => false end.

Definition is_dozing (c : pc) : bool :=
  match c with Dozing _ => true | _ => false end.

(** A branch together with the threads it has started, the tasks run to
    completion so far and the notifications sent so far.  A task is
    opaque: running it is recorded in [executed] and leaves the members of
    the branch alone.  [woken] holds the workers asleep in [task_cv.wait]
    that a notification has unblocked and that have not run since;
    [picks] holds the choices the implementation of [notify_one] will
    make among the sleeping workers at its coming calls (any choice is
    allowed, so a statement about all pools is about all choices). *)
Record pool := Pool {
  wb : workbranch;
  threads : gmap tid pc;
  executed : list task_t;
  signals : list signal;
  woken : gset tid;
  picks : list tid
}.

Definition set_wb (b : workbranch) (p : pool) : pool :=
  Pool b (threads p) (executed p) (signals p) (woken p) (picks p).
Definition goto (self : tid) (c : pc) (p : pool) : pool :=
  Pool (wb p) (<[self := c]> (threads p)) (executed p) (signals p) (woken p) (picks p).
Definition set_executed (l : list task_t) (p : pool) : pool :=
  Pool (wb p) (threads p) l (signals p) (woken p) (picks p).
Definition set_woken (w : gset tid) (p : pool) : pool :=
  Pool (wb p) (threads p) (executed p) (signals p) w (picks p).
Definition set_picks (o : list tid) (p : pool) : pool :=
  Pool (wb p) (threads p) (executed p) (signals p) (woken p) o.

(** The threads whose place in [mission] passes a test. *)
Definition threads_in (P : pc → bool) (p : pool) : gset tid :=
  dom (filter (λ kv : tid * pc, P kv.2 = true) (threads p)).

(** [lok] is held from one step to the next only by a worker that has
    found the predicate of [task_cv.wait] false and is not asleep yet. *)
Definition lok_free (p : pool) : Prop := threads_in is_dozing p = ∅.

(** What a notification does to the workers.  Workers sleep on [task_cv]
    and on [thread_cv]; the other two condition variables have the caller
    of [wait_tasks] as their only waiter.  On [task_cv], [notify_all]
    unblocks every worker that is asleep and [notify_one] unblocks one of
    those not yet unblocked, the one [picks] names if it is among them;
    with no worker asleep the notification is lost.  A worker inside
    [thread_cv.wait] is handled in [resume]. *)
Definition deliver (asleep : gset tid) (wo : gset tid * list tid) (s : signal)
  : gset tid * list tid :=
  match s with
  | notify_all task_cv => (wo.1 ∪ asleep, wo.2)
  | notify_one task_cv =>
      let sleepers := asleep ∖ wo.1 in
      let chosen :=
        match wo.2 with
        | t :: _ => if decide (t ∈ sleepers) then Some t else head (elements sleepers)
        | [] => head (elements sleepers)
        end in
      (match chosen with Some t => {[t]} ∪ wo.1 | None => wo.1 end, tail wo.2)
  | _ => wo
  end.

(** The notifications of a client call, recorded and delivered. *)
Definition emit (ss : list signal) (p : pool) : pool :=
  let wo := foldl (deliver (threads_in is_blocked p)) (woken p, picks p) ss in
  Pool (wb p) (threads p) (executed p) (signals p ++ ss) wo.1 wo.2.

(** The notifications of a worker, which go to [task_done_cv], [thread_cv]
    and [waiting_finished] and so unblock no worker asleep on [task_cv]:
    they are recorded. *)
Definition log (ss : list signal) (p : pool) : pool :=
  Pool (wb p) (threads p) (executed p) (signals p ++ ss) (woken p) (picks p).

(** The predicate of [task_cv.wait] under the blocking strategy. *)
Definition task_cv_pred (b : workbranch) : bool :=
  (0 <? TaskQueue.getLength (tq b)) || m_is_waiting b || destructing b
  || (0 <? decline b).

(** [if (decline <= 0 && ...)]: the unlocked read of [decline]. *)
Definition loop_head (self : tid) (spin_count : Z) (p : pool) : pool :=
  if decline (wb p) <=? 0 then goto self (Popping spin_count) p
  else goto self (CheckDecline spin_count) p.

(** [... && tq.try_pop(task)], under the mutex of the queue only. *)
Definition pop (self : tid) (spin_count : Z) (p : pool) : pool :=
  match TaskQueue.try_pop (tq (wb p)) with
  | (Some task, rest) => goto self (Executing task) (set_wb (set_tq rest (wb p)) p)
  | (None, _) => goto self (CheckDecline spin_count) p
  end.

(** [task(); spin_count = 0;] *)
Definition run_task (self : tid) (task : task_t) (p : pool) : pool :=
  goto self (LoopHead 0) (set_executed (executed p ++ [task]) p).

(** [else if (decline > 0)]: the second unlocked read of [decline]. *)
Definition check_decline (self : tid) (spin_count : Z) (p : pool) : pool :=
  if 0 <? decline (wb p) then goto self (Retiring spin_count) p
  else goto self (CheckWaiting spin_count) p.

(** The block under [std::lock_guard] of the branch [else if (decline > 0)],
    to the release of [lok] at its [return]. *)
Definition retire (self : tid) (spin_count : Z) (p : pool) : pool :=
  let b := wb p in
  if 0 <? decline b then
    let b' := set_workers (workers b ∖ {[self]}) (set_decline (decline b - 1) b) in
    goto self Leaving
      (log ((if m_is_waiting b then [notify_one task_done_cv] else [])
             ++ (if destructing b then [notify_one thread_cv] else []))
         (set_wb b' p))
  else goto self (LoopHead spin_count) p.

(** What is left of the thread after the block: the return from [mission]
    and the end of the detached thread, which nobody joins. *)
Definition leave (self : tid) (p : pool) : pool := goto self Exited p.

(** [if (m_is_waiting)], read without [lok], and the [switch] on the
    strategy, which no call changes after the constructor. *)
Definition check_waiting (self : tid) (spin_count : Z) (p : pool) : pool :=
  let b := wb p in
  if m_is_waiting b then goto self (Reporting spin_count) p
  else
    match wait_strategy b with
    | lowlatancy => goto self (LoopHead spin_count) p
    | balance =>
        if spin_count <? max_spin_count
        then goto self (LoopHead (spin_count + 1)) p
        else goto self (LoopHead spin_count) p
    | blocking => goto self (Blocking spin_count) p
    end.

(** Leaving [thread_cv.wait(locker, [this] { return !m_is_waiting; })].
    The flag changes under [lok] only, and [wait_tasks] sends
    [notify_all] to [thread_cv] each time it has cleared it; so a worker
    in this wait goes on exactly when the flag is false. *)
Definition resume (self : tid) (spin_count : Z) (p : pool) : pool :=
  let b := wb p in
  if m_is_waiting b then p
  else
    let n := to_size_t (waiting_finished_worker b + 1) in
    goto self (LoopHead spin_count)
      (log (if num_workers b <=? n then [notify_one waiting_finished] else [])
         (set_wb (set_waiting_finished_worker n b) p)).

(** [task_done_workers++; task_done_cv.notify_one();] and the entry of
    [thread_cv.wait], which tests its predicate before it sleeps: with the
    flag already cleared the worker goes straight on. *)
Definition report_idle (self : tid) (spin_count : Z) (p : pool) : pool :=
  let b := wb p in
  let p' :=
    log [notify_one task_done_cv]
      (set_wb (set_task_done_workers (to_size_t (task_done_workers b + 1)) b) p) in
  if m_is_waiting b then goto self (Parked spin_count) p'
  else resume self spin_count p'.

(** [std::unique_lock<std::mutex> locker(lok)] and the predicate of
    [task_cv.wait], evaluated under [lok]. *)
Definition block (self : tid) (spin_count : Z) (p : pool) : pool :=
  if task_cv_pred (wb p) then goto self (LoopHead spin_count) p
  else goto self (Dozing spin_count) p.

(** The wait itself: the thread gives up [lok] and sleeps. *)
Definition doze (self : tid) (spin_count : Z) (p : pool) : pool :=
  goto self (Blocked spin_count) (set_woken (woken p ∖ {[self]}) p).

(** A sleeping thread runs again only once it has been unblocked; it then
    evaluates the predicate anew. *)
Definition wake_up (self : tid) (spin_count : Z) (p : pool) : pool :=
  if decide (self ∈ woken p)
  then goto self (Blocking spin_count) (set_woken (woken p ∖ {[self]}) p)
  else p.

(** A step that begins by taking [lok], at the head of a block or on the
    way out of a wait: the thread cannot take it while another worker
    holds [lok]. *)
Definition under_lok (step : pool → pool) (p : pool) : pool :=
  if decide (lok_free p) then step p else p.

(** One step of the thread [self]; a thread that waits for [lok], is
    asleep, has ended or does not exist leaves the pool as it is. *)
Definition mission (self : tid) (p : pool) : pool :=
  match threads p !! self with
  | Some (LoopHead n) => loop_head self n p
  | Some (Popping n) => pop self n p
  | Some (Executing task) => run_task self task p
  | Some (CheckDecline n) => check_decline self n p
  | Some (Retiring n) => under_lok (retire self n) p
  | Some Leaving => leave self p
  | Some (CheckWaiting n) => check_waiting self n p
  | Some (Reporting n) => under_lok (report_idle self n) p
  | Some (Parked n) => under_lok (resume self n) p
  | Some (Blocking n) => under_lok (block self n) p
  | Some (Dozing n) => doze self n p
  | Some (Blocked n) => wake_up self n p
  | Some Exited | None => p
  end.

(** A condition variable may also unblock a waiter with no notification. *)
Definition spurious (t : tid) (p : pool) : pool :=
  match threads p !! t with
  | Some (Blocked _) => set_woken ({[t]} ∪ woken p) p
  | _ => p
  end.

(** What a schedule is made of: steps of the threads and spurious
    wake-ups. *)
Inductive event :=
| Step (t : tid)
| Spurious (t : tid).

Definition fire (e : event) (p : pool) : pool :=
  match e with
  | Step t => mission t p
  | Spurious t => spurious t p
  end.

Definition run (schedule : list event) (p : pool) : pool :=
  foldl (λ p e, fire e p) p schedule.

(** The schedule in which the listed threads take one step each, in
    order, and nothing wakes up spuriously. *)
Definition steps (ts : list tid) : list event := Step <$> ts.

(** The threads that take a step of a schedule at a moment when no
    worker holds [lok]: such a step is no wait for [lok]. *)
Fixpoint unhindered (schedule : list event) (p : pool) : gset tid :=
  match schedule with
  | [] => ∅
  | e :: schedule' =>
      match e with
      | Step t => if decide (lok_free p) then {[t]} else ∅
      | Spurious _ => ∅
      end ∪ unhindered schedule' (fire e p)
  end.

(** One pass through the tests at the head of the loop with no other
    thread and no call in between: from [LoopHead] to the branch the
    thread takes. *)
Definition deciding (c : pc) : bool :=
  match c with Popping _ | CheckDecline _ | CheckWaiting _ => true | _ => false end.

Definition settle (self : tid) (p : pool) : pool :=
  match threads p !! self with
  | Some c => if deciding c then mission self p else p
  | None => p
  end.

Definition iteration (self : tid) (p : pool) : pool :=
  settle self (settle self (settle self (mission self p))).

(** The member functions on a pool: [add_worker] also starts the thread
    it stores, whose id is the id of no thread of the pool. *)
Definition pool_add_worker (p : pool) : pool :=
  let t := fresh (workers (wb p) ∪ dom (threads p)) in
  goto t (LoopHead 0) (set_wb (set_workers ({[t]} ∪ workers (wb p)) (wb p)) p).

Definition pool_new (wks : Z) (strategy : waitStrategy) : pool :=
  Nat.iter (Z.to_nat (Z.max wks 1)) pool_add_worker
    (Pool (initial strategy) ∅ [] [] ∅ []).

Definition pool_submit (T : task_tag) (f : fn) (fs : list fn) (p : pool) : pool :=
  emit (submit T f fs (wb p)).2 (set_wb (submit T f fs (wb p)).1 p).

(** [submit] in its two halves: the task is enqueued under the mutex of
    the queue; the notification follows with no lock held, and the
    workers may run in between. *)
Definition pool_enqueue (T : task_tag) (f : fn) (fs : list fn) (p : pool) : pool :=
  set_wb (submit T f fs (wb p)).1 p.

Definition pool_notify (p : pool) : pool :=
  emit (when_blocking (wb p) (notify_one task_cv)) p.

Definition pool_del_worker (p : pool) : outcome unit * pool :=
  ((del_worker (wb p)).1.1,
   emit (del_worker (wb p)).2 (set_wb (del_worker (wb p)).1.2 p)).

Definition pool_destructor_enter (p : pool) : pool :=
  emit (destructor_enter (wb p)).2 (set_wb (destructor_enter (wb p)).1 p).

(** [wait_tasks], cut at its two waits: entering phase 1; leaving the
    timed wait on [task_done_cv] (with the result [res] of that wait) and
    waking the workers; leaving the wait on [waiting_finished]. *)
Definition wait_tasks_enter (p : pool) : pool :=
  let b := set_is_waiting true (wb p) in
  emit (when_blocking b (notify_all task_cv)) (set_wb b p).

Definition all_reported (b : workbranch) : bool :=
  num_workers b <=? task_done_workers b.

Definition wait_tasks_resume (p : pool) : bool * pool :=
  (all_reported (wb p),
   emit [notify_all thread_cv]
     (set_wb (set_is_waiting false (set_task_done_workers 0 (wb p))) p)).

Definition all_resumed (b : workbranch) : bool :=
  num_workers b <=? waiting_finished_worker b.

Definition wait_tasks_leave (p : pool) : pool :=
  if all_resumed (wb p) then set_wb (set_waiting_finished_worker 0 (wb p)) p
  else p.

(** No thread of the branch is left in the loop of [mission]. *)
Definition no_thread_alive (p : pool) : Prop :=
  ∀ t c, threads p !! t = Some c → alive c = false.

(** Every thread the branch has started has ended. *)
Definition all_threads_ended (p : pool) : Prop :=
  ∀ t c, threads p !! t = Some c → running c = false.

(** The threads still in the loop of [mission] are the ones in the map. *)
Definition workers_are_alive (p : pool) : Prop :=
  ∀ t, t ∈ workers (wb p) ↔ ∃ c, threads p !! t = Some c ∧ alive c = true.

(** Only under the blocking strategy is a thread at [task_cv.wait]. *)
Definition at_task_cv (c : pc) : bool :=
  match c with Blocking _ | Dozing _ | Blocked _ => true | _ => false end.

Definition blocking_only (p : pool) : Prop :=
  ∀ t c, threads p !! t = Some c → at_task_cv c = true →
         wait_strategy (wb p) = blocking.

(** The pools a client can build: a new branch, then any interleaving of
    calls of the client, steps of the worker threads and spurious
    wake-ups, with any choices of [notify_one].  The calls that take
    [lok] are made when no worker holds it. *)
Inductive reachable : pool → Prop :=
| reach_new wks strategy : reachable (pool_new wks strategy)
| reach_add_worker p : reachable p → lok_free p → reachable (pool_add_worker p)
| reach_del_worker p : reachable p → lok_free p → reachable (pool_del_worker p).2
| reach_enqueue T f fs p : reachable p → reachable (pool_enqueue T f fs p)
| reach_notify p : reachable p → reachable (pool_notify p)
| reach_wait_enter p : reachable p → lok_free p → reachable (wait_tasks_enter p)
| reach_wait_resume p : reachable p → lok_free p → reachable (wait_tasks_resume p).2
| reach_wait_leave p : reachable p → lok_free p → reachable (wait_tasks_leave p)
| reach_fire e p : reachable p → reachable (fire e p)
| reach_picks o p : reachable p → reachable (set_picks o p).

(** The reading of the quiesce phase under which a worker takes nothing
    from the queue in an iteration begun while [m_is_waiting] is true. *)
Definition pops_nothing_while_waiting (p : pool) (self : tid) : Prop :=
  m_is_waiting (wb p) = true → tq (wb (iteration self p)) = tq (wb p).

(** What the destructor relies on once it has set [decline]: the threads
    in the loop are the workers in the map, and [decline] counts them. *)
Definition winding_down (p : pool) : Prop :=
  workers_are_alive p ∧ decline (wb p) = num_workers (wb p).

(** The state of a branch whose destructor waits on [thread_cv] while no
    [wait_tasks] is under way: no worker holds [lok], the workers asleep
    on [task_cv] have been unblocked; and the number of steps a thread
    then needs to leave the loop. *)
Definition shutting_down (p : pool) : Prop :=
  winding_down p ∧ destructing (wb p) = true ∧ m_is_waiting (wb p) = false
  ∧ lok_free p ∧ threads_in is_blocked p ⊆ woken p.

Definition steps_to_exit (c : pc) : nat :=
  match c with
  | Exited | Leaving | Dozing _ => 0
  | Retiring _ => 1
  | CheckDecline _ => 2
  | LoopHead _ => 3
  | Executing _ | Parked _ | Reporting _ | Blocking _ => 4
  | Popping _ | CheckWaiting _ | Blocked _ => 5
  end.

(** The task a thread is in the middle of running, if any. *)
Definition inflight (c : pc) : list task_t :=
  match c with Executing task => [task] | _ => [] end.

Definition is_parked (c : pc) : bool :=
  match c with Parked _ => true | _ => false end.

(** The threads inside the [if (m_is_waiting)] block of [mission]. *)
Definition in_wait_block (c : pc) : bool :=
  match c with Reporting _ | Parked _ => true | _ => false end.

(** The threads that have read [decline <= 0] and not yet called
    [try_pop]. *)
Definition is_popping (c : pc) : bool :=
  match c with Popping _ => true | _ => false end.

(** The threads between a [try_pop] that found the queue empty and the
    end of the iteration. *)
Definition past_pop (c : pc) : bool :=
  match c with
  | CheckDecline _ | CheckWaiting _ | Reporting _ | Parked _ => true
  | _ => false
  end.


(** Phase 2 of [wait_tasks] with no retirement pending: the flag is
    cleared, and [n] workers in all have reported or can still report
    that they have resumed, the ones counted in
    [waiting_finished_worker] and the ones still inside the waiting
    block. *)
Definition resuming (n : Z) (p : pool) : Prop :=
  workers_are_alive p
  ∧ m_is_waiting (wb p) = false
  ∧ decline (wb p) = 0
  ∧ 0 ≤ waiting_finished_worker (wb p)
  ∧ waiting_finished_worker (wb p)
    + Z.of_nat (size (threads_in in_wait_block p)) = n
  ∧ n ≤ num_workers (wb p)
  ∧ Z.of_nat (size (threads p)) ≤ SIZE_MAX.
End branch.
Arguments task_t : clear implicits.
Arguments workbranch : clear implicits.
Arguments pc : clear implicits.
Arguments pool : clear implicits.

End WorkBranch.

(** ** supervisor.h *)

Module Supervisor.

(** Addresses of heap objects; [nullptr] is address 0. *)
Definition addr := nat.

(** The data members; the tick callback [m_tickCb] runs outside the lock
    and touches no member. [m_branches] holds the addresses behind the
    [std::shared_ptr]s. *)
Record supervisor := Sup {
  m_stopping : bool;
  m_wmin : Z;
  m_wmax : Z;
  m_tout : Z;
  m_tval : Z;
  m_branches : list addr
}.

Definition set_tout (t : Z) (s : supervisor) : supervisor :=
  Sup (m_stopping s) (m_wmin s) (m_wmax s) t (m_tval s) (m_branches s).

(** [supervisor(size_t wmin, size_t wmax, unsigned int tout = 500, ...)];
    the arguments are converted to the parameter types. *)
Definition new (ndebug : bool) (wmin wmax tout : Z) : outcome supervisor :=
  let wmin := to_size_t wmin in
  let wmax := to_size_t wmax in
  let tout := to_uint tout in
  assert ndebug ((0 <=? wmin) && (0 <? wmax) && (wmin <? wmax))
    (Returns (Sup false wmin wmax tout tout [])).

Definition add_super (b : addr) (s : supervisor) : supervisor :=
  Sup (m_stopping s) (m_wmin s) (m_wmax s) (m_tout s) (m_tval s)
      (m_branches s ++ [b]).

(** [void suspend(unsigned int t = -1)] *)
Definition suspend (t : Z) (s : supervisor) : supervisor := set_tout (to_uint t) s.
Definition suspend_default : supervisor → supervisor := suspend (-1).

Definition proceed (s : supervisor) : supervisor := set_tout (m_tval s) s.

(** The calls a client can make on a supervisor between its construction
    and its destruction. *)
Inductive request :=
| AddSuper (b : addr)
| Suspend (t : Z)
| Proceed.

Definition serve (s : supervisor) (r : request) : supervisor :=
  match r with
  | AddSuper b => add_super b s
  | Suspend t => suspend t s
  | Proceed => proceed s
  end.

(** The calls [mission] makes on a branch. *)
Inductive call := AddWorker | DelWorker.

Section mission.
Context {fn : Type}.
Local Abbreviation workbranch := (WorkBranch.workbranch fn).

(** The body of [for (auto ptr : m_branches)] for one branch: the branch
    after the body and the calls made on it, in order. *)
Definition mission_branch (ndebug : bool) (s : supervisor) (b : workbranch)
  : outcome (workbranch * list call) :=
  let workNums := WorkBranch.num_workers b in
  let taskNums := WorkBranch.num_tasks b in
  if 0 <? taskNums then
    assert ndebug (workNums <=? m_wmax s)
      (let needed := if workNums <? taskNums then to_size_t (taskNums - workNums) else 0 in
       let capacity := to_size_t (m_wmax s - workNums) in
       let nums_to_add := Z.min capacity needed in
       Returns
         (Nat.iter (Z.to_nat nums_to_add)
            (λ st, (WorkBranch.add_worker st.1, st.2 ++ [AddWorker]))
            (b, [])))
  else if m_wmin s <? workNums then
    match WorkBranch.del_worker b with
    | (Returns _, b', _) => Returns (b', [DelWorker])
    | (Throws, _, _) => Throws
    | (Aborts, _, _) => Aborts
    | (Undefined, _, _) => Undefined
    end
  else Returns (b, []).

(** The scaling rule in closed form: [min(wmax - workers, max(0, tasks -
    workers))] calls of [add_worker] when tasks are queued, one call of
    [del_worker] when none is queued and there are more than [wmin]
    workers, and no call otherwise. *)
Definition scaling_rule (s : supervisor) (b : workbranch) : list call :=
  let workers := WorkBranch.num_workers b in
  let tasks := WorkBranch.num_tasks b in
  if 0 <? tasks then
    replicate (Z.to_nat (Z.min (m_wmax s - workers) (Z.max 0 (tasks - workers))))
              AddWorker
  else if m_wmin s <? workers then [DelWorker]
  else [].

Definition follows_scaling_rule (ndebug : bool) (s : supervisor) (b : workbranch)
  : Prop :=
  ∃ b', mission_branch ndebug s b = Returns (b', scaling_rule s b).

(** The loop over [m_branches] of one tick, on the store of branches.
    The loop stops at the first body that does not return; what was done
    before stays done.  An exception ends the tick in the [catch] of
    [mission], and the [while] loop goes on with the next tick. *)
Fixpoint mission_loop (ndebug : bool) (s : supervisor) (ptrs : list addr)
    (heap : gmap addr workbranch) (log : list (addr * call))
  : gmap addr workbranch * list (addr * call) * outcome unit :=
  match ptrs with
  | [] => (heap, log, Returns ())
  | ptr :: rest =>
      match heap !! ptr with
      | None => (heap, log, Undefined)
      | Some b =>
          match mission_branch ndebug s b with
          | Returns (b', calls) =>
              mission_loop ndebug s rest (<[ptr := b']> heap)
                (log ++ ((λ c, (ptr, c)) <$> calls))
          | Throws => (heap, log, Throws)
          | Aborts => (heap, log, Aborts)
          | Undefined => (heap, log, Undefined)
          end
      end
  end.

Definition mission_tick (ndebug : bool) (s : supervisor)
    (heap : gmap addr workbranch) :=
  mission_loop ndebug s (m_branches s) heap [].
End mission.

End Supervisor.

(** ** workspace.h *)

Module Workspace.

Definition addr := Supervisor.addr.
Definition nullptr : addr := 0%nat.

Section workspace.
Context {fn : Type}.
Local Abbreviation workbranch := (WorkBranch.workbranch fn).

(** A [std::unique_ptr<workbranch>] that is not null: the address it
    holds and the object it owns. *)
Local Abbreviation branch_ptr := (addr * workbranch)%type.

(** The data members.  A [std::list] iterator is the index of its node;
    [end()] is the length of the list. *)
Record workspace := WS {
  cur : nat;
  m_branchList : list branch_ptr;
  m_superMap : gmap addr Supervisor.supervisor
}.

Definition begin_ (l : list branch_ptr) : nat := 0.
Definition end_ (l : list branch_ptr) : nat := length l.

(** [workspace() = default]: both containers are empty.  The
    value-initialised [cur] is overwritten by [attach] before any member
    reads it; it is given the index of [end()]. *)
Definition new : workspace := WS 0 [] ∅.

(** [bid attach(workbranch *b)]; [obj] is the object at address [b]. *)
Definition attach (ndebug : bool) (b : addr) (obj : workbranch) (w : workspace)
  : outcome (workspace * addr) :=
  assert ndebug (negb (b =? nullptr)%nat)
    (let l := m_branchList w ++ [(b, obj)] in
     Returns (WS (begin_ l) l (m_superMap w), b)).

(** [sid attach(supervisor *s)]: [emplace] leaves the entry of an existing
    key alone (the map is all that is modelled of that case). *)
Definition attach_supervisor (ndebug : bool) (s : addr)
    (obj : Supervisor.supervisor) (w : workspace) : outcome (workspace * addr) :=
  assert ndebug (negb (s =? nullptr)%nat)
    (Returns
       (WS (cur w) (m_branchList w)
           (match m_superMap w !! s with
            | Some _ => m_superMap w
            | None => <[s := obj]> (m_superMap w)
            end), s)).

(** The loop [for (auto it = begin(); it != end(); ++it)] of [detach] up
    to its test [it->get() == b.ptr]: the first iterator that passes the
    test, counted from [it]. *)
Fixpoint find_first (b : addr) (l : list branch_ptr) (it : nat) : option nat :=
  match l with
  | [] => None
  | up :: l' => if (up.1 =? b)%nat then Some it else find_first b l' (S it)
  end.

(** [detach(bid b)]: the result is the returned [unique_ptr] ([None] is
    [nullptr]).  Erasing node [it] moves the nodes behind it one index
    down, so [next_it] is index [it] of the list after the erase. *)
Definition detach (b : addr) (w : workspace) : option branch_ptr * workspace :=
  match find_first b (m_branchList w) (begin_ (m_branchList w)) with
  | Some it =>
      let up := m_branchList w !! it in
      let l := delete it (m_branchList w) in
      let next_it := it in
      let cur' :=
        if (length l =? 0)%nat then end_ l
        else if (next_it =? end_ l)%nat then begin_ l
        else next_it in
      (up, WS cur' l (m_superMap w))
  | None => (None, w)
  end.

(** [detach(sid s)] *)
Definition detach_supervisor (s : addr) (w : workspace)
  : option Supervisor.supervisor * workspace :=
  match m_superMap w !! s with
  | None => (None, w)
  | Some up => (Some up, WS (cur w) (m_branchList w) (delete s (m_superMap w)))
  end.

(** [forward(this_pos)] *)
Definition forward (l : list branch_ptr) (this_pos : nat) : nat :=
  if (S this_pos =? end_ l)%nat then begin_ l else S this_pos.

(** [submit<T>(task)] in its three overloads, which differ only in the
    call they pass on to the chosen branch.  Dereferencing an iterator
    that is not on a node is undefined. *)
Definition submit (ndebug : bool) (T : WorkBranch.task_tag) (f : fn) (fs : list fn)
    (w : workspace) : outcome workspace :=
  let l := m_branchList w in
  assert ndebug (negb (length l =? 0)%nat)
    (match l !! cur w with
     | None => Undefined
     | Some this_br =>
         let cur' := forward l (cur w) in
         match l !! cur' with
         | None => Undefined
         | Some next_br =>
             if WorkBranch.num_tasks next_br.2 <? WorkBranch.num_tasks this_br.2
             then Returns (WS cur'
                             (<[cur' := (next_br.1, (WorkBranch.submit T f fs next_br.2).1)]> l)
                             (m_superMap w))
             else Returns (WS cur'
                             (<[cur w := (this_br.1, (WorkBranch.submit T f fs this_br.2).1)]> l)
                             (m_superMap w))
         end
     end).

(** The branch the cursor stands on, if any. *)
Definition at_cursor (w : workspace) : option branch_ptr := m_branchList w !! cur w.

(** The cursor is on a node of the list, or the list is empty and the
    cursor is [end()]. *)
Definition cursor_ok (w : workspace) : Prop :=
  (cur w < length (m_branchList w))%nat
  ∨ (m_branchList w = [] ∧ cur w = end_ (m_branchList w)).

(** The reading of [detach] under which the cursor stays on its branch
    unless that branch is the one detached. *)
Definition cursor_kept_unless_detached (b : addr) (w : workspace) : Prop :=
  at_cursor w ≠ None → fst <$> at_cursor w ≠ Some b →
  at_cursor (detach b w).2 = at_cursor w.

(** No address is owned twice. *)
Definition owns_once (w : workspace) : Prop := NoDup (m_branchList w).*1.

(** The number of tasks queued over all branches of a list. *)
Definition total_tasks (l : list branch_ptr) : Z :=
  foldr (λ up acc, WorkBranch.num_tasks up.2 + acc) 0 l.

(** A client that submits the callables of a list one after the other. *)
Fixpoint submit_all (ndebug : bool) (T : WorkBranch.task_tag) (fs : list fn)
    (w : workspace) : outcome workspace :=
  match fs with
  | [] => Returns w
  | f :: fs' =>
      match submit ndebug T f [] w with
      | Returns w' => submit_all ndebug T fs' w'
      | Throws => Throws
      | Aborts => Aborts
      | Undefined => Undefined
      end
  end.

(** The workspaces a client can build.  The branches are live objects:
    between two calls their workers may have changed them, the addresses
    staying as they are. *)
Inductive reachable (ndebug : bool) : workspace → Prop :=
| reach_new : reachable ndebug new
| reach_attach b obj w w' h :
    reachable ndebug w → attach ndebug b obj w = Returns (w', h) →
    reachable ndebug w'
| reach_attach_supervisor s obj w w' h :
    reachable ndebug w → attach_supervisor ndebug s obj w = Returns (w', h) →
    reachable ndebug w'
| reach_detach b w : reachable ndebug w → reachable ndebug (detach b w).2
| reach_detach_supervisor s w :
    reachable ndebug w → reachable ndebug (detach_supervisor s w).2
| reach_submit T f fs w w' :
    reachable ndebug w → submit ndebug T f fs w = Returns w' →
    reachable ndebug w'
| reach_workers_ran w l :
    reachable ndebug w → l.*1 = (m_branchList w).*1 →
    reachable ndebug (WS (cur w) l (m_superMap w)).

(** The first [j] branches of a list have [k + 1] queued tasks and the
    others [k]. *)
Definition spread (k : Z) (j : nat) (l : list branch_ptr) : Prop :=
  ∀ i up, l !! i = Some up →
          WorkBranch.num_tasks up.2 = if (i <? j)%nat then k + 1 else k.
End workspace.
Arguments workspace : clear implicits.

End Workspace.

(** * Properties *)

(** ** Machine integers *)

Lemma to_size_t_id z : 0 ≤ z ≤ SIZE_MAX → to_size_t z = z.
Proof. unfold to_size_t, SIZE_MAX. intros ?. apply Z.mod_small. lia. Qed.

Lemma to_uint_id z : 0 ≤ z ≤ UINT_MAX → to_uint z = z.
Proof. unfold to_uint, UINT_MAX. intros ?. apply Z.mod_small. lia. Qed.

Lemma to_size_t_range z : 0 ≤ to_size_t z ≤ SIZE_MAX.
Proof.
  unfold to_size_t, SIZE_MAX.
  pose proof (Z.mod_pos_bound z (2 ^ 64)). lia.
Qed.

Lemma to_uint_range z : 0 ≤ to_uint z ≤ UINT_MAX.
Proof.
  unfold to_uint, UINT_MAX.
  pose proof (Z.mod_pos_bound z (2 ^ 32)). lia.
Qed.

(** ** The task queue *)

Section taskQueue_facts.
Import TaskQueue.
Context {V : Type}.
Implicit Types (x : V) (l F B : list V) (cs : list (call V)).

Lemma try_pop_None {T} (qu : taskQueue T) : (try_pop qu).1 = None ↔ qu = [].
Proof. destruct qu; simpl; split; congruence. Qed.

Lemma drain_all {T} (qu : taskQueue T) n :
  (length qu ≤ n)%nat → drain (S n) qu = qu.
Proof.
  revert n. induction qu as [|v qu IH]; intros n Hn; [done|].
  destruct n as [|n]; simpl in Hn; [lia|].
  change (drain (S (S n)) (v :: qu)) with (v :: drain (S n) qu).
  rewrite IH; [done | lia].
Qed.

Lemma run_snoc {T} (cs : list (call T)) c st :
  run (cs ++ [c]) st = run_call (run cs st) c.
Proof. unfold run. by rewrite foldl_app. Qed.

Lemma pushed_app s cs cs' :
  pushed s (cs ++ cs') = pushed s cs ++ pushed s cs'.
Proof.
  induction cs as [|c' cs IH]; simpl; [done|].
  destruct c'; try destruct (same_side _ _); simpl; by rewrite IH.
Qed.

Lemma of_side_app s (l1 l2 : list (side * V)) :
  of_side s (l1 ++ l2) = of_side s l1 ++ of_side s l2.
Proof.
  induction l1 as [|[s' x] l1 IH]; simpl; [done|].
  destruct (same_side s s'); simpl; by rewrite IH.
Qed.

Lemma of_side_same s l : of_side s ((λ x, (s, x)) <$> l) = l.
Proof. induction l as [|x l IH]; [done|]. destruct s; simpl; f_equal; apply IH. Qed.

Lemma of_side_other s s' l :
  same_side s s' = false → of_side s ((λ x, (s', x)) <$> l) = [].
Proof. intros Hs. induction l as [|x l IH]; [done|]. simpl. rewrite Hs. apply IH. Qed.

(** The shape of the queue after any sequence of calls on a new queue:
    the front-pushed values still queued, newest first, then the
    back-pushed values still queued, oldest first. *)
Definition shape cs (st : client (side * V)) : Prop :=
  ∃ F B,
    queue st = ((λ x, (Front, x)) <$> F) ++ ((λ x, (Back, x)) <$> B)
    ∧ sublist F (reverse (pushed Front cs))
    ∧ of_side Back (popped st) ++ B = pushed Back cs
    ∧ (pushes_only cs = true → F = reverse (pushed Front cs) ∧ popped st = []).

Lemma run_shape cs : shape cs (run (tag <$> cs) (Client [] [])).
Proof.
  induction cs as [|c cs IH] using rev_ind.
  - exists [], []. simpl. repeat split; done.
  - rewrite fmap_app. change (tag <$> [c]) with [tag c]. rewrite run_snoc.
    destruct IH as (F & B & Hq & HF & HB & Hp).
    unfold shape. rewrite !pushed_app.
    assert (Hpo : pushes_only (cs ++ [c]) = true →
                  pushes_only cs = true ∧ c ≠ TryPop).
    { unfold pushes_only. rewrite forallb_app. simpl.
      intros [? Hc]%andb_prop. split; [done|]. by destruct c. }
    destruct c as [x|x|]; simpl.
    + exists F, (B ++ [x]). rewrite Hq. unfold push_back.
      rewrite fmap_app, app_nil_r, <-!app_assoc. simpl.
      split_and!; [done|done| |].
      * by rewrite app_assoc, HB.
      * intros [Hc _]%Hpo. by apply Hp.
    + exists (x :: F), B. rewrite Hq. unfold push_front.
      rewrite reverse_app, app_nil_r. simpl.
      split_and!; [done|by apply sublist_skip|done|].
      intros [Hc _]%Hpo. destruct (Hp Hc) as [-> ->]. done.
    + rewrite !app_nil_r. rewrite Hq.
      destruct F as [|y F]; [destruct B as [|y B]|]; simpl.
      * exists [], []. split_and!; try done. by intros [_ ?]%Hpo.
      * exists [], B. simpl. split_and!; try done.
        -- rewrite of_side_app. simpl. by rewrite <-app_assoc.
        -- by intros [_ ?]%Hpo.
      * exists F, B. split_and!; try done.
        -- etrans; [apply sublist_cons|done]. done.
        -- rewrite of_side_app. simpl. by rewrite app_nil_r.
        -- by intros [_ ?]%Hpo.
Qed.

Example run_interleaved :
  run (tag <$> [PushBack 1; PushFront 2; PushBack 3; PushFront 4; TryPop; PushFront 5])
      (Client [] [])
  = Client [(Front, 4)] [(Front, 5); (Front, 2); (Back, 1); (Back, 3)].
Proof. reflexivity. Qed.

(** C7.  [try_pop] is a total function of the queue (it never waits); it
    reports failure exactly on the empty queue and then leaves the queue
    as it is.  For every sequence of calls on a new queue: the values
    pushed at the back come out (popped so far, then still queued) in
    the order of their [push_back]s; the values pushed at the front that
    are still queued stand before every queued back-pushed value and in
    the reverse order of their [push_front]s; popping hands the queue
    out from its head; and a value just pushed at the front is the next
    one popped. *)
Theorem taskQueue_try_pop_and_order :
  (∀ qu : taskQueue V,
      ((try_pop qu).1 = None ↔ qu = [])
      ∧ ((try_pop qu).1 = None → (try_pop qu).2 = qu)
      ∧ drain (S (length qu)) qu = qu)
  ∧ (∀ (x : V) (qu : taskQueue V), try_pop (push_front x qu) = (Some x, qu))
  ∧ (∀ cs : list (call V),
      let st := run (tag <$> cs) (Client [] []) in
      of_side Back (popped st ++ queue st) = pushed Back cs
      ∧ of_side Front (queue st) `sublist_of` reverse (pushed Front cs)
      ∧ queue st = ((λ x, (Front, x)) <$> of_side Front (queue st))
                   ++ ((λ x, (Back, x)) <$> of_side Back (queue st))
      ∧ (pushes_only cs = true →
         popped st = []
         ∧ (queue st).*2 = reverse (pushed Front cs) ++ pushed Back cs)).
Proof.
  split_and!.
  - intros qu. split_and!.
    + apply try_pop_None.
    + by intros ->%try_pop_None.
    + by apply drain_all.
  - done.
  - intros cs st. destruct (run_shape cs) as (F & B & Hq & HF & HB & Hp).
    fold st in Hq, HB, Hp.
    assert (HqF : of_side Front (queue st) = F).
    { rewrite Hq, of_side_app, of_side_same, of_side_other by done.
      by rewrite app_nil_r. }
    assert (HqB : of_side Back (queue st) = B).
    { by rewrite Hq, of_side_app, of_side_same, of_side_other by done. }
    split_and!.
    + by rewrite of_side_app, HqB.
    + by rewrite HqF.
    + by rewrite HqF, HqB.
    + intros Hc. destruct (Hp Hc) as [-> Hpop]. split; [done|].
      rewrite Hpop in HB. simpl in HB. subst B.
      rewrite Hq, fmap_app, <-!list_fmap_compose.
      f_equal; apply list_fmap_id.
Qed.
End taskQueue_facts.

(** ** The work branch: its member functions *)

Section workbranch_facts.
Import WorkBranch.
Context {fn : Type}.
Implicit Types (b : workbranch fn) (p : pool fn).

Lemma new_thread_id_fresh b : new_thread_id b ∉ workers b.
Proof. unfold new_thread_id. apply is_fresh. Qed.

Lemma num_workers_add_worker b :
  num_workers (add_worker b) = num_workers b + 1.
Proof.
  unfold num_workers, add_worker. simpl.
  rewrite size_union, size_singleton; [lia|].
  pose proof (new_thread_id_fresh b). set_solver.
Qed.

Lemma iter_add_worker n b :
  let b' := Nat.iter n add_worker b in
  num_workers b' = num_workers b + Z.of_nat n
  ∧ wait_strategy b' = wait_strategy b
  ∧ tq b' = tq b
  ∧ decline b' = decline b.
Proof.
  induction n as [|n IH]; simpl; [split_and!; (done || lia)|].
  destruct IH as (IH1 & IH2 & IH3 & IH4).
  rewrite num_workers_add_worker, IH1. split_and!; (done || lia).
Qed.

Example new_3 : num_workers (new (fn := fn) 3 balance) = 3.
Proof. by vm_compute. Qed.

(** C8.  [workbranch(wks, strategy)] leaves exactly [max(wks, 1)] workers
    in the map, for every integer [wks] and every strategy; with
    [wks = 0] that is one worker. *)
Theorem workbranch_new_num_workers :
  ∀ (wks : Z) (strategy : waitStrategy),
    num_workers (new (fn := fn) wks strategy) = Z.max wks 1
    ∧ wait_strategy (new (fn := fn) wks strategy) = strategy
    ∧ num_workers (new (fn := fn) 0 strategy) = 1.
Proof.
  assert (H : ∀ wks strategy,
             num_workers (new (fn := fn) wks strategy) = Z.max wks 1
             ∧ wait_strategy (new (fn := fn) wks strategy) = strategy).
  { intros wks strategy. unfold new.
    destruct (iter_add_worker (Z.to_nat (Z.max wks 1)) (initial strategy))
      as (Hn & Hs & _).
    rewrite Hn, Hs. split; [|done].
    change (num_workers (initial strategy)) with 0. lia. }
  intros wks strategy. destruct (H wks strategy) as [H1 H2].
  split_and!; [done|done|]. by destruct (H 0 strategy) as [-> _].
Qed.

(** C5.  [del_worker()] throws exactly when the worker map is empty, and
    then the branch is as before and nothing was notified.  With a
    worker in the map it returns, [decline] has gone up by one (modulo
    the width of [size_t]), the workers and the queue are as before, one
    [notify_one] went to [task_cv] under the blocking strategy and none
    otherwise; no thread has taken a step when the call returns. *)
Theorem del_worker_spec :
  ∀ b,
    ((del_worker b).1.1 = Throws ↔ workers b = ∅)
    ∧ (workers b = ∅ → del_worker b = (Throws, b, []))
    ∧ (workers b ≠ ∅ →
       (del_worker b).1.1 = Returns ()
       ∧ decline (del_worker b).1.2 = to_size_t (decline b + 1)
       ∧ (0 ≤ decline b < SIZE_MAX → decline (del_worker b).1.2 = decline b + 1)
       ∧ (del_worker b).1.2 = set_decline (to_size_t (decline b + 1)) b
       ∧ workers (del_worker b).1.2 = workers b
       ∧ tq (del_worker b).1.2 = tq b
       ∧ (del_worker b).2
         = (if is_blocking (wait_strategy b) then [notify_one task_cv] else [])
       ∧ (length (del_worker b).2 ≤ 1)%nat)
    ∧ (∀ p, wb p = b →
         threads (pool_del_worker p).2 = threads p
         ∧ executed (pool_del_worker p).2 = executed p).
Proof.
  intros b. split_and!.
  - unfold del_worker. destruct (decide _); simpl; split; done.
  - intros He. unfold del_worker. by rewrite decide_True.
  - intros Hne. unfold del_worker. rewrite decide_False by done. simpl.
    split_and!; try done.
    + intros ?. apply to_size_t_id. unfold SIZE_MAX in *. lia.
    + unfold when_blocking. simpl. destruct (is_blocking _); simpl; lia.
  - intros p <-. unfold pool_del_worker, del_worker.
    destruct (decide _); done.
Qed.
End workbranch_facts.

(** ** The work branch: its worker threads *)


Section mission_facts.
Import WorkBranch.
Context {fn : Type}.
Implicit Types (b : workbranch fn) (p q : pool fn) (c : pc fn) (self t : tid).
Implicit Types (P : pc fn → bool) (e : event) (schedule : list event).

Lemma elem_of_threads_in P p t :
  t ∈ threads_in P p ↔ ∃ c, threads p !! t = Some c ∧ P c = true.
Proof.
  unfold threads_in. rewrite elem_of_dom. unfold is_Some.
  setoid_rewrite map_lookup_filter_Some. simpl. naive_solver.
Qed.

Lemma threads_in_insert P p p' self c :
  threads p' = <[self := c]> (threads p) →
  threads_in P p'
  = if P c then {[self]} ∪ threads_in P p else threads_in P p ∖ {[self]}.
Proof.
  intros Hq. apply set_eq. intros t.
  assert (Hmem : t ∈ threads_in P p'
                 ↔ (t = self ∧ P c = true) ∨ (t ≠ self ∧ t ∈ threads_in P p)).
  { rewrite !elem_of_threads_in. rewrite Hq.
    destruct (decide (self = t)) as [->|Hne].
    - rewrite lookup_insert_eq. split.
      + intros (c' & [= <-] & HP). by left.
      + intros [[_ HP]|[? _]]; [eauto|done].
    - rewrite lookup_insert_ne by done. split; [intros ?; right; by split|].
      by intros [[-> _]|[_ ?]]. }
  rewrite Hmem. destruct (P c).
  - rewrite elem_of_union, elem_of_singleton.
    destruct (decide (t = self)); naive_solver.
  - rewrite elem_of_difference, elem_of_singleton. naive_solver.
Qed.

Lemma threads_in_same P p q :
  threads q = threads p → threads_in P q = threads_in P p.
Proof. intros Hq. unfold threads_in. by rewrite Hq. Qed.

Lemma alive_moves p p' self c0 c :
  threads p !! self = Some c0 → alive c = alive c0 →
  threads p' = <[self := c]> (threads p) →
  workers (wb p') = workers (wb p) →
  workers_are_alive p → workers_are_alive p'.
Proof.
  intros Hself Hc Ht Hw Hinv t. rewrite Ht, Hw, (Hinv t).
  destruct (decide (self = t)) as [->|Hne].
  - rewrite lookup_insert_eq, Hself.
    split; intros (c' & [= <-] & Ha); eexists; (split; [done|congruence]).
  - by rewrite lookup_insert_ne.
Qed.

Lemma alive_exits p p' self c0 c :
  threads p !! self = Some c0 → alive c = false →
  threads p' = <[self := c]> (threads p) →
  workers (wb p') = workers (wb p) ∖ {[self]} →
  workers_are_alive p → workers_are_alive p'.
Proof.
  intros Hself Hc Ht Hw Hinv t. rewrite Ht, Hw, elem_of_difference, (Hinv t).
  destruct (decide (self = t)) as [->|Hne].
  - rewrite lookup_insert_eq. split.
    + intros [_ Hn]. set_solver.
    + intros (c' & [= <-] & Ha). congruence.
  - rewrite lookup_insert_ne by done. split; [by intros [? _]|].
    intros ?. split; [done|]. set_solver.
Qed.

Ltac moves p Hself Hinv :=
  lazymatch goal with
  | |- workers_are_alive (goto ?s ?c ?q) =>
      apply (alive_moves p (goto s c q) s _ c Hself);
      [done|done|done|exact Hinv]
  end.

Lemma workers_are_alive_resume p self n c0 :
  threads p !! self = Some c0 → alive c0 = true →
  workers_are_alive p → workers_are_alive (resume self n p).
Proof.
  intros Hself Ha Hinv. unfold resume. case_match; [done|].
  by apply (alive_moves p _ self c0 (LoopHead n) Hself).
Qed.

Lemma workers_are_alive_mission p self :
  workers_are_alive p → workers_are_alive (mission self p).
Proof.
  intros Hinv. unfold mission.
  destruct (threads p !! self) as [c0|] eqn:Hself; [|done].
  destruct c0 as [n|n|task|n|n| |n|n|n|n|n|n|]; try done.
  - unfold loop_head. case_match; moves p Hself Hinv.
  - unfold pop. repeat case_match; moves p Hself Hinv.
  - unfold run_task. moves p Hself Hinv.
  - unfold check_decline. case_match; moves p Hself Hinv.
  - unfold under_lok, retire. case_match; [|done].
    case_match; [|moves p Hself Hinv].
    by apply (alive_exits p _ self _ Leaving Hself).
  - unfold leave. moves p Hself Hinv.
  - unfold check_waiting. repeat case_match; moves p Hself Hinv.
  - unfold under_lok, report_idle. case_match; [|done].
    case_match; [moves p Hself Hinv|].
    by apply (workers_are_alive_resume _ self n (Reporting n)).
  - unfold under_lok. case_match; [|done].
    by apply (workers_are_alive_resume p self n (Parked n)).
  - unfold under_lok, block. repeat case_match; try done; moves p Hself Hinv.
  - unfold doze. moves p Hself Hinv.
  - unfold wake_up. case_match; [|done]. moves p Hself Hinv.
Qed.

Lemma spurious_frame t p :
  wb (spurious t p) = wb p ∧ threads (spurious t p) = threads p
  ∧ executed (spurious t p) = executed p ∧ signals (spurious t p) = signals p
  ∧ picks (spurious t p) = picks p ∧ woken p ⊆ woken (spurious t p).
Proof. unfold spurious. repeat case_match; split_and!; set_solver. Qed.

Lemma workers_are_alive_fire p e :
  workers_are_alive p → workers_are_alive (fire e p).
Proof.
  destruct e as [t|t]; [apply workers_are_alive_mission|].
  change (fire (Spurious t) p) with (spurious t p).
  destruct (spurious_frame t p) as (Hw & Ht & _).
  unfold workers_are_alive. by rewrite Hw, Ht.
Qed.

Lemma workers_are_alive_add_worker p :
  workers_are_alive p → workers_are_alive (pool_add_worker p).
Proof.
  intros Hinv t. unfold pool_add_worker. simpl.
  set (new := fresh (workers (wb p) ∪ dom (threads p))).
  rewrite elem_of_union, elem_of_singleton, (Hinv t).
  destruct (decide (new = t)) as [<-|Hne].
  - rewrite lookup_insert_eq. split; [eauto|]. intros _. by left.
  - rewrite lookup_insert_ne by done. split; [|by right].
    by intros [->|?].
Qed.

Lemma workers_are_alive_new wks strategy :
  workers_are_alive (fn := fn) (pool_new wks strategy).
Proof.
  unfold pool_new. induction (Z.to_nat (Z.max wks 1)) as [|n IH].
  - intros t.
    change (t ∈ (∅ : gset tid)
            ↔ ∃ c, (∅ : gmap tid (pc fn)) !! t = Some c ∧ alive c = true).
    split; [set_solver|]. intros (c & Hc & _). by rewrite lookup_empty in Hc.
  - by apply workers_are_alive_add_worker.
Qed.

Lemma reachable_workers_are_alive p : reachable p → workers_are_alive p.
Proof.
  induction 1 as [| | p _ IH _ | T f fs p _ IH | | | | p _ IH _ | |]; try done.
  - apply workers_are_alive_new.
  - by apply workers_are_alive_add_worker.
  - unfold pool_del_worker, del_worker. by destruct (decide _).
  - unfold pool_enqueue, submit. by destruct T.
  - unfold wait_tasks_leave. by case_match.
  - by apply workers_are_alive_fire.
Qed.

Lemma reachable_submit T f fs p : reachable p → reachable (pool_submit T f fs p).
Proof.
  intros Hp. change (reachable (pool_notify (pool_enqueue T f fs p))).
  by apply reach_notify, reach_enqueue.
Qed.

(** Only under the blocking strategy does a thread reach [task_cv.wait]. *)
Lemma blocking_only_mission p self :
  blocking_only p → blocking_only (mission self p).
Proof.
  intros Hinv.
  assert (Hkeep : ∀ q c, threads q = threads p →
            wait_strategy (wb q) = wait_strategy (wb p) →
            (at_task_cv c = true → wait_strategy (wb p) = blocking) →
            blocking_only (goto self c q)).
  { intros q c Hq Hs Hc t c'. simpl. rewrite Hq, Hs.
    destruct (decide (self = t)) as [->|Hne].
    - rewrite lookup_insert_eq. intros [= <-]. exact Hc.
    - rewrite lookup_insert_ne by done. apply Hinv. }
  unfold mission.
  destruct (threads p !! self) as [c0|] eqn:Hself; [|done].
  pose proof (Hinv self c0 Hself) as H0.
  destruct c0 as [n|n|task|n|n| |n|n|n|n|n|n|]; try done.
  - unfold loop_head. case_match; by apply Hkeep.
  - unfold pop. repeat case_match; by apply Hkeep.
  - unfold run_task. by apply Hkeep.
  - unfold check_decline. case_match; by apply Hkeep.
  - unfold under_lok, retire. case_match; [|done]. case_match; by apply Hkeep.
  - unfold leave. by apply Hkeep.
  - unfold check_waiting. repeat case_match; by apply Hkeep.
  - unfold under_lok, report_idle, resume. case_match; [|done].
    simpl. case_match; by apply Hkeep.
  - unfold under_lok, resume. case_match; [|done].
    case_match; [done|]. by apply Hkeep.
  - unfold under_lok, block. repeat case_match; try done; apply Hkeep; auto.
  - unfold doze. apply Hkeep; auto.
  - unfold wake_up. case_match; [|done]. apply Hkeep; auto.
Qed.

Lemma blocking_only_frame p q :
  threads q = threads p → wait_strategy (wb q) = wait_strategy (wb p) →
  blocking_only p → blocking_only q.
Proof. intros Ht Hs Hinv t c. rewrite Ht, Hs. apply Hinv. Qed.

Lemma reachable_blocking_only p : reachable p → blocking_only p.
Proof.
  induction 1 as [wks strategy|p _ IH _|p _ IH _|T f fs p _ IH|p _ IH|p _ IH _
                 |p _ IH _|p _ IH _|e p _ IH|o p _ IH].
  - unfold pool_new. induction (Z.to_nat (Z.max wks 1)) as [|n IHn].
    + intros t c Hc.
      change ((∅ : gmap tid (pc fn)) !! t = Some c) in Hc.
      by rewrite lookup_empty in Hc.
    + rewrite Nat.iter_succ. intros t c. unfold pool_add_worker at 1. simpl.
      match goal with |- <[?k := _]> _ !! _ = _ → _ =>
        destruct (decide (k = t)) as [->|Hne] end.
      * rewrite lookup_insert_eq. by intros [= <-].
      * rewrite lookup_insert_ne by done. apply IHn.
  - intros t c. unfold pool_add_worker. simpl.
    match goal with |- <[?k := _]> _ !! _ = _ → _ =>
      destruct (decide (k = t)) as [->|Hne] end.
    + rewrite lookup_insert_eq. by intros [= <-].
    + rewrite lookup_insert_ne by done. apply IH.
  - eapply blocking_only_frame; [| |exact IH];
      unfold pool_del_worker, del_worker; by destruct (decide _).
  - eapply blocking_only_frame; [| |exact IH];
      unfold pool_enqueue, submit; by destruct T.
  - by eapply blocking_only_frame; [| |exact IH].
  - by eapply blocking_only_frame; [| |exact IH].
  - by eapply blocking_only_frame; [| |exact IH].
  - unfold wait_tasks_leave. by case_match.
  - destruct e as [t|t]; [by apply blocking_only_mission|].
    change (blocking_only (spurious t p)).
    destruct (spurious_frame t p) as (Hw & Ht & _).
    eapply blocking_only_frame; [exact Ht|by rewrite Hw|exact IH].
  - by eapply blocking_only_frame; [| |exact IH].
Qed.

Lemma winding_down_mission p self :
  winding_down p → winding_down (mission self p).
Proof.
  intros [Hinv Hd]. split; [by apply workers_are_alive_mission|].
  unfold mission.
  destruct (threads p !! self) as [c0|] eqn:Hself; [|done].
  destruct c0 as [n|n|task|n|n| |n|n|n|n|n|n|]; try done.
  - unfold loop_head. by case_match.
  - unfold pop. by repeat case_match.
  - unfold check_decline. by case_match.
  - unfold under_lok, retire. case_match; [|done]. case_match; [|done].
    assert (self ∈ workers (wb p)) as Hin by (apply Hinv; eauto).
    unfold num_workers in *. simpl. rewrite Hd.
    rewrite size_difference by set_solver. rewrite size_singleton.
    assert (size (workers (wb p)) ≠ 0%nat).
    { intros ?%size_empty_iff. set_solver. }
    lia.
  - unfold check_waiting. by repeat case_match.
  - unfold under_lok, report_idle, resume. simpl. by repeat case_match.
  - unfold under_lok, resume. by repeat case_match.
  - unfold under_lok, block. by repeat case_match.
  - unfold wake_up. by case_match.
Qed.

Lemma winding_down_fire p e : winding_down p → winding_down (fire e p).
Proof.
  destruct e as [t|t]; [apply winding_down_mission|].
  intros [Hinv Hd]. split; [by apply (workers_are_alive_fire p (Spurious t))|].
  change (fire (Spurious t) p) with (spurious t p).
  destruct (spurious_frame t p) as (-> & _). done.
Qed.

Lemma winding_down_run schedule p :
  winding_down p → winding_down (run schedule p).
Proof.
  revert p. induction schedule as [|e schedule IH]; intros p Hp; [done|].
  apply IH, winding_down_fire, Hp.
Qed.

Lemma winding_down_no_thread p :
  winding_down p → decline (wb p) = 0 → no_thread_alive p.
Proof.
  intros [Hinv Hd] H0 t c Ht.
  destruct (alive c) eqn:Hc; [|done]. exfalso.
  assert (t ∈ workers (wb p)) as Hin by (apply Hinv; eauto).
  unfold num_workers in Hd.
  assert (size (workers (wb p)) = 0%nat) as ?%size_empty_iff by lia.
  set_solver.
Qed.

Lemma run_app schedule1 schedule2 p :
  run (schedule1 ++ schedule2) p = run schedule2 (run schedule1 p).
Proof. unfold run. apply foldl_app. Qed.

Ltac shut Hgoto :=
  eapply Hgoto; [reflexivity|done|done|cbn [woken goto set_wb set_executed set_woken log]; set_solver|done|done|done].

Lemma shutting_down_step p t c :
  shutting_down p → threads p !! t = Some c → alive c = true →
  shutting_down (mission t p)
  ∧ ∃ c', threads (mission t p) !! t = Some c'
          ∧ (steps_to_exit c' < steps_to_exit c)%nat
          ∧ workers (wb (mission t p))
            = (if alive c' then workers (wb p) else workers (wb p) ∖ {[t]}).
Proof.
  intros (Hwd & Hdes & Hw & Hlok & Hwoken) Hc Ha.
  assert (Hin : t ∈ workers (wb p)) by (apply Hwd; eauto).
  assert (Hpos : 0 < decline (wb p)).
  { destruct Hwd as [_ ->]. unfold num_workers.
    assert (size (workers (wb p)) ≠ 0%nat); [|lia].
    intros ?%size_empty_iff. set_solver. }
  assert (Hgt : (0 <? decline (wb p)) = true) by lia.
  assert (Hle : (decline (wb p) <=? 0) = false) by lia.
  assert (Hpred : task_cv_pred (wb p) = true).
  { unfold task_cv_pred. by rewrite Hdes, !orb_true_r. }
  pose proof (winding_down_mission p t Hwd) as Hwd'.
  assert (Hgoto : ∀ c' p',
            threads p' = <[t := c']> (threads p) →
            destructing (wb p') = true → m_is_waiting (wb p') = false →
            woken p ∖ {[t]} ⊆ woken p' →
            is_dozing c' = false → is_blocked c' = false →
            winding_down p' → shutting_down p').
  { intros c' p' Ht ? ? Hwk Hd Hb ?. split_and!; try done.
    - unfold lok_free. rewrite (threads_in_insert _ p p' t c' Ht), Hd.
      unfold lok_free in Hlok. set_solver.
    - rewrite (threads_in_insert _ p p' t c' Ht), Hb. set_solver. }
  unfold mission in *. rewrite Hc in *.
  destruct c as [n|n|task|n|n| |n|n|n|n|n|n|]; try done.
  - unfold loop_head in *. rewrite Hle in *.
    split; [shut Hgoto|].
    eexists. split; [apply lookup_insert_eq|]. simpl. split; [lia|done].
  - unfold pop in *.
    destruct (TaskQueue.try_pop (tq (wb p))) as [[task|] rest].
    + split; [shut Hgoto|].
      eexists. split; [apply lookup_insert_eq|]. simpl. split; [lia|done].
    + split; [shut Hgoto|].
      eexists. split; [apply lookup_insert_eq|]. simpl. split; [lia|done].
  - unfold run_task in *.
    split; [shut Hgoto|].
    eexists. split; [apply lookup_insert_eq|]. simpl. split; [lia|done].
  - unfold check_decline in *. rewrite Hgt in *.
    split; [shut Hgoto|].
    eexists. split; [apply lookup_insert_eq|]. simpl. split; [lia|done].
  - unfold under_lok, retire in *. rewrite decide_True in * by done.
    rewrite Hgt, Hw, Hdes in *.
    split; [shut Hgoto|].
    eexists. split; [apply lookup_insert_eq|]. simpl. split; [lia|done].
  - unfold check_waiting in *. rewrite Hw in *.
    destruct (wait_strategy (wb p)); [|destruct (n <? max_spin_count)|].
    + split; [shut Hgoto|].
      eexists. split; [apply lookup_insert_eq|]. simpl. split; [lia|done].
    + split; [shut Hgoto|].
      eexists. split; [apply lookup_insert_eq|]. simpl. split; [lia|done].
    + split; [shut Hgoto|].
      eexists. split; [apply lookup_insert_eq|]. simpl. split; [lia|done].
    + split; [shut Hgoto|].
      eexists. split; [apply lookup_insert_eq|]. simpl. split; [lia|done].
  - unfold under_lok, report_idle, resume in *.
    rewrite decide_True in * by done.
    cbn [wb log set_wb m_is_waiting set_task_done_workers] in *.
    rewrite Hw in *.
    split; [shut Hgoto|].
    eexists. split; [apply lookup_insert_eq|]. simpl. split; [lia|done].
  - unfold under_lok, resume in *. rewrite decide_True in * by done.
    rewrite Hw in *.
    split; [shut Hgoto|].
    eexists. split; [apply lookup_insert_eq|]. simpl. split; [lia|done].
  - unfold under_lok, block in *. rewrite decide_True, Hpred in * by done.
    split; [shut Hgoto|].
    eexists. split; [apply lookup_insert_eq|]. simpl. split; [lia|done].
  - exfalso. unfold lok_free in Hlok.
    assert (t ∈ threads_in is_dozing p) by (apply elem_of_threads_in; eauto).
    set_solver.
  - assert (t ∈ woken p) as Hwk.
    { apply Hwoken, elem_of_threads_in. eauto. }
    unfold wake_up in *. rewrite decide_True in * by done.
    split; [shut Hgoto|].
    eexists. split; [apply lookup_insert_eq|]. simpl. split; [lia|done].
Qed.

Lemma drive_thread_out t d :
  ∀ p c, shutting_down p → threads p !! t = Some c → alive c = true →
         (steps_to_exit c ≤ d)%nat →
         ∃ ts, shutting_down (run (steps ts) p)
               ∧ workers (wb (run (steps ts) p)) = workers (wb p) ∖ {[t]}.
Proof.
  induction d as [|d IH]; intros p c Hp Hc Ha Hd.
  - destruct c; simpl in *; try (done || lia).
    exfalso. destruct Hp as (_ & _ & _ & Hlok & _). unfold lok_free in Hlok.
    assert (t ∈ threads_in is_dozing p) by (apply elem_of_threads_in; eauto).
    set_solver.
  - destruct (shutting_down_step p t c Hp Hc Ha) as (Hp' & c' & Hc' & Hlt & Hw).
    destruct (alive c') eqn:Ha'.
    + destruct (IH _ c' Hp' Hc' Ha') as (ts & Hs & Hws); [lia|].
      exists (t :: ts). split; [exact Hs|].
      change (run (steps (t :: ts)) p) with (run (steps ts) (mission t p)).
      by rewrite Hws, Hw.
    + exists [t]. by split.
Qed.

(** The wait of the destructor does end: from every branch that is not in
    the middle of a [wait_tasks], where the destructor has taken [lok]
    and only the blocking strategy has put workers to sleep, some
    schedule of the workers with no spurious wake-up brings [decline] to
    0. *)
Lemma destructor_can_return p :
  workers_are_alive p → m_is_waiting (wb p) = false →
  lok_free p → blocking_only p →
  ∃ ts,
    destructor_may_return (wb (run (steps ts) (pool_destructor_enter p))) = true.
Proof.
  intros Hinv Hw Hlok Hblk.
  assert (Hp0 : shutting_down (pool_destructor_enter p)).
  { split_and!; try done.
    unfold pool_destructor_enter, destructor_enter, emit, when_blocking.
    cbn [woken threads_in threads snd fst wb wait_strategy set_destructing
           set_decline set_wb].
    destruct (is_blocking (wait_strategy (wb p))) eqn:Hs.
    - cbn. set_solver.
    - cbn. intros t (c & Hc & Hb)%elem_of_threads_in.
      assert (wait_strategy (wb p) = blocking) as Hbl.
      { apply (Hblk t c Hc). by destruct c. }
      by rewrite Hbl in Hs. }
  revert Hp0. generalize (pool_destructor_enter p). clear p Hinv Hw Hlok Hblk.
  intros p. remember (size (workers (wb p))) as n eqn:Hn.
  revert p Hn. induction n as [|n IH]; intros p Hn Hp.
  - exists []. unfold destructor_may_return. simpl.
    destruct Hp as ([_ ->] & _). unfold num_workers. rewrite <-Hn. done.
  - assert (Hne : workers (wb p) ≠ ∅).
    { intros He. rewrite He, size_empty in Hn. done. }
    apply set_choose_L in Hne as [t Ht].
    destruct Hp as (Hwd & Hrest).
    destruct (proj1 (proj1 Hwd t) Ht) as (c & Hc & Ha).
    destruct (drive_thread_out t _ p c (conj Hwd Hrest) Hc Ha (le_n _))
      as (ts1 & Hp1 & Hw1).
    destruct (IH (run (steps ts1) p)) as (ts2 & Hret); [|done|].
    + rewrite Hw1, size_difference by (by apply singleton_subseteq_l).
      rewrite size_singleton. lia.
    + exists (ts1 ++ ts2). unfold steps. by rewrite fmap_app, run_app.
Qed.

(** C2, as the code has it.  Entering [~workbranch()] sets [decline] to
    the number of workers and [destructing] to true and, under the
    blocking strategy, sends [notify_all] to [task_cv]: every worker
    asleep in [task_cv.wait] is unblocked, finds the predicate true and
    goes back to the head of its loop.  Whatever steps the workers then
    take, [decline] stays equal to the number of workers still in the
    loop of [mission], so the wait on [thread_cv], which ends only with
    [decline == 0], ends only when every thread the branch has started
    has gone through the block in which it decrements [decline] and
    erases itself from the map.  (Whether the thread has ended by then
    the destructor does not know: it joins no thread.) *)
Theorem destructor_waits_for_all_workers :
  ∀ p schedule,
    workers_are_alive p →
    let p0 := pool_destructor_enter p in
    let p' := run schedule p0 in
    (decline (wb p0) = num_workers (wb p)
     ∧ destructing (wb p0) = true
     ∧ threads p0 = threads p
     ∧ signals p0 = signals p
         ++ (if is_blocking (wait_strategy (wb p)) then [notify_all task_cv] else [])
     ∧ task_cv_pred (wb p0) = true
     ∧ (wait_strategy (wb p) = blocking →
        ∀ t n, threads p !! t = Some (Blocked n) →
               t ∈ woken p0
               ∧ threads (mission t p0) !! t = Some (Blocking n)
               ∧ (lok_free p →
                  threads (mission t (mission t p0)) !! t = Some (LoopHead n))))
    ∧ workers_are_alive p'
    ∧ decline (wb p') = num_workers (wb p')
    ∧ (destructor_may_return (wb p') = true ↔ decline (wb p') = 0)
    ∧ (destructor_may_return (wb p') = true → no_thread_alive p').
Proof.
  intros p schedule Hinv p0 p'.
  assert (H0 : winding_down p0) by (by split).
  assert (H' : winding_down p') by (by apply winding_down_run).
  assert (Hpred : task_cv_pred (wb p0) = true).
  { unfold task_cv_pred. simpl. by rewrite !orb_true_r. }
  split_and!; try done.
  - intros Hs t n Ht.
    assert (Hwk : t ∈ woken p0).
    { unfold p0, pool_destructor_enter, destructor_enter, when_blocking.
      cbn [snd fst wb wait_strategy set_destructing set_decline]. rewrite Hs.
      cbn. apply elem_of_union_r, elem_of_threads_in. eauto. }
    assert (Ht0 : threads p0 !! t = Some (Blocked n)) by exact Ht.
    assert (Hstep : mission t p0
                    = goto t (Blocking n) (set_woken (woken p0 ∖ {[t]}) p0)).
    { unfold mission, wake_up. rewrite Ht0. by rewrite decide_True. }
    split_and!; [done|rewrite Hstep; apply lookup_insert_eq|].
    intros Hlok. rewrite Hstep. unfold mission at 1.
    cbn [threads goto set_woken]. rewrite lookup_insert_eq.
    unfold under_lok, block. rewrite decide_True.
    + cbn [wb goto set_woken]. rewrite Hpred. apply lookup_insert_eq.
    + unfold lok_free in *.
      rewrite (threads_in_insert _ p _ t (Blocking n)) by done.
      cbn. set_solver.
  - apply H'.
  - apply H'.
  - unfold destructor_may_return. apply Z.eqb_eq.
  - unfold destructor_may_return. intros ?%Z.eqb_eq.
    by apply winding_down_no_thread.
Qed.

Lemma parked_stays p self n :
  m_is_waiting (wb p) = true → threads p !! self = Some (Parked n) →
  mission self p = p.
Proof.
  intros Hw Hself. unfold mission, under_lok, resume. rewrite Hself, Hw.
  by case_match.
Qed.

Lemma all_parked_run p schedule :
  m_is_waiting (wb p) = true →
  (∀ t c, threads p !! t = Some c → running c = true → ∃ n, c = Parked n) →
  run schedule p = p.
Proof.
  intros Hw Hall. induction schedule as [|e schedule IH]; [done|].
  unfold run. simpl. fold (run schedule (fire e p)).
  assert (fire e p = p) as ->; [|exact IH].
  destruct e as [self|self]; simpl.
  - destruct (threads p !! self) as [c|] eqn:Hself.
    + destruct (running c) eqn:Hc.
      * destruct (Hall self c Hself Hc) as [n ->]. by eapply parked_stays.
      * destruct c; try done. unfold mission. by rewrite Hself.
    + unfold mission. by rewrite Hself.
  - unfold spurious. destruct (threads p !! self) as [c|] eqn:Hself; [|done].
    destruct c; try done. by destruct (Hall self _ Hself eq_refl).
Qed.

Lemma settle_goto self c q :
  settle self (goto self c q)
  = if deciding c then mission self (goto self c q) else goto self c q.
Proof. unfold settle. cbn [threads goto]. by rewrite lookup_insert_eq. Qed.

Lemma mission_goto self c q :
  mission self (goto self c q)
  = let q' := goto self c q in
    match c with
    | LoopHead n => loop_head self n q'
    | Popping n => pop self n q'
    | Executing task => run_task self task q'
    | CheckDecline n => check_decline self n q'
    | Retiring n => under_lok (retire self n) q'
    | Leaving => leave self q'
    | CheckWaiting n => check_waiting self n q'
    | Reporting n => under_lok (report_idle self n) q'
    | Parked n => under_lok (resume self n) q'
    | Blocking n => under_lok (block self n) q'
    | Dozing n => doze self n q'
    | Blocked n => wake_up self n q'
    | Exited => q'
    end.
Proof. unfold mission. cbn [threads goto]. by rewrite lookup_insert_eq. Qed.

Lemma iteration_pops p self n task rest :
  threads p !! self = Some (LoopHead n) →
  decline (wb p) ≤ 0 → tq (wb p) = task :: rest →
  tq (wb (iteration self p)) = rest
  ∧ threads (iteration self p) !! self = Some (Executing task).
Proof.
  intros Hself Hd Hq. unfold iteration.
  assert (mission self p = goto self (Popping n) p) as ->.
  { unfold mission, loop_head. rewrite Hself.
    by assert ((decline (wb p) <=? 0) = true) as -> by lia. }
  rewrite settle_goto. cbn [deciding]. rewrite mission_goto. cbv zeta.
  unfold pop. cbn [wb goto]. rewrite Hq. cbn [TaskQueue.try_pop].
  repeat (rewrite settle_goto; cbn [deciding]). split; [done|apply lookup_insert_eq].
Qed.

Lemma iteration_finds_empty p self n :
  threads p !! self = Some (LoopHead n) →
  decline (wb p) ≤ 0 → tq (wb p) = [] →
  tq (wb (iteration self p)) = []
  ∧ threads (iteration self p) !! self
    = Some (if m_is_waiting (wb p) then Reporting n
            else match wait_strategy (wb p) with
                 | lowlatancy => LoopHead n
                 | balance => if n <? max_spin_count then LoopHead (n + 1)
                              else LoopHead n
                 | blocking => Blocking n
                 end).
Proof.
  intros Hself Hd Hq. unfold iteration.
  assert (mission self p = goto self (Popping n) p) as ->.
  { unfold mission, loop_head. rewrite Hself.
    by assert ((decline (wb p) <=? 0) = true) as -> by lia. }
  rewrite settle_goto. cbn [deciding]. rewrite mission_goto. cbv zeta.
  unfold pop. cbn [wb goto]. rewrite Hq. cbn [TaskQueue.try_pop].
  rewrite settle_goto. cbn [deciding]. rewrite mission_goto. cbv zeta.
  unfold check_decline. cbn [wb goto].
  assert ((0 <? decline (wb p)) = false) as -> by lia.
  rewrite settle_goto. cbn [deciding]. rewrite mission_goto. cbv zeta.
  unfold check_waiting. cbn [wb goto].
  destruct (m_is_waiting (wb p)); [|destruct (wait_strategy (wb p));
    [|destruct (n <? max_spin_count)|]];
    (split; [by rewrite <-Hq|apply lookup_insert_eq]).
Qed.

Lemma iteration_declined p self n :
  threads p !! self = Some (LoopHead n) → 0 < decline (wb p) →
  tq (wb (iteration self p)) = tq (wb p)
  ∧ threads (iteration self p) !! self = Some (Retiring n).
Proof.
  intros Hself Hd. unfold iteration.
  assert (mission self p = goto self (CheckDecline n) p) as ->.
  { unfold mission, loop_head. rewrite Hself.
    by assert ((decline (wb p) <=? 0) = false) as -> by lia. }
  rewrite settle_goto. cbn [deciding]. rewrite mission_goto. cbv zeta.
  unfold check_decline. cbn [wb goto].
  assert ((0 <? decline (wb p)) = true) as -> by lia.
  repeat (rewrite settle_goto; cbn [deciding]). split; [done|apply lookup_insert_eq].
Qed.

(** C1, as the code has it.  In an iteration of the mission loop taken
    while [m_is_waiting] is true the worker pops the front task exactly
    when [decline] is 0 and the queue is not empty, and goes on to report
    idle only when [decline] is 0 and the queue is empty; the call of
    [try_pop] itself takes the front task whatever the flag and
    [decline] are by then, and no other step of a thread changes the
    queue.  A worker that has reported and is parked on [thread_cv] does
    nothing while [m_is_waiting] is true; so once every running worker
    is parked, a submission stays in the queue, whatever the schedule,
    until [wait_tasks] clears the flag. *)
Theorem mission_while_waiting :
  ∀ p self,
    m_is_waiting (wb p) = true →
    (∀ n, threads p !! self = Some (LoopHead n) →
       (tq (wb (iteration self p)) ≠ tq (wb p)
        ↔ decline (wb p) ≤ 0 ∧ tq (wb p) ≠ [])
       ∧ (∀ task rest, decline (wb p) ≤ 0 → tq (wb p) = task :: rest →
            tq (wb (iteration self p)) = rest
            ∧ threads (iteration self p) !! self = Some (Executing task))
       ∧ (threads (iteration self p) !! self = Some (Reporting n)
          ↔ decline (wb p) ≤ 0 ∧ tq (wb p) = []))
    ∧ (∀ n task rest, threads p !! self = Some (Popping n) →
         tq (wb p) = task :: rest →
         tq (wb (mission self p)) = rest
         ∧ threads (mission self p) !! self = Some (Executing task))
    ∧ (∀ c, threads p !! self = Some c → (∀ n, c ≠ Popping n) →
         tq (wb (mission self p)) = tq (wb p))
    ∧ (∀ n, threads p !! self = Some (Parked n) → mission self p = p)
    ∧ ((∀ t c, threads p !! t = Some c → running c = true → ∃ n, c = Parked n) →
       ∀ T f fs schedule,
         run schedule (pool_submit T f fs p) = pool_submit T f fs p
         ∧ tq (wb (pool_submit T f fs p)) ≠ []).
Proof.
  intros p self Hw. split_and!.
  - intros n Hself.
    destruct (decide (decline (wb p) ≤ 0)) as [Hd|Hd].
    + destruct (tq (wb p)) as [|task rest] eqn:Hq.
      * destruct (iteration_finds_empty p self n Hself Hd Hq) as [Hq' Hc'].
        rewrite Hq', Hc', Hw.
        split_and!; [split; [done|by intros [_ ?]]|done|done].
      * destruct (iteration_pops p self n task rest Hself Hd Hq) as [Hq' Hc'].
        rewrite Hq', Hc'. split_and!.
        -- split; [done|]. intros _ Heq.
           apply (f_equal length) in Heq. simpl in Heq. lia.
        -- by intros ?? _ [= <- <-].
        -- split; [done|]. by intros [_ ?].
    + destruct (iteration_declined p self n Hself) as [Hq' Hc']; [lia|].
      rewrite Hq', Hc'. split_and!.
      * split; [done|]. by intros [? _].
      * intros ???. lia.
      * split; [done|]. by intros [? _].
  - intros n task rest Hself Hq. unfold mission, pop. rewrite Hself, Hq.
    cbn [TaskQueue.try_pop]. split; [done|apply lookup_insert_eq].
  - intros c Hself Hc. unfold mission. rewrite Hself.
    destruct c as [n|n|task|n|n| |n|n|n|n|n|n|]; try done.
    + unfold loop_head. by case_match.
    + by destruct (Hc n).
    + unfold check_decline. by case_match.
    + unfold under_lok, retire. by repeat case_match.
    + unfold check_waiting. by repeat case_match.
    + unfold under_lok, report_idle, resume. simpl. rewrite Hw. by case_match.
    + unfold under_lok, resume. by repeat case_match.
    + unfold under_lok, block. by repeat case_match.
    + unfold wake_up. by case_match.
  - intros n Hself. by apply (parked_stays p self n).
  - intros Hall T f fs schedule. split.
    + apply all_parked_run.
      * unfold pool_submit, submit. by destruct T.
      * unfold pool_submit, submit. destruct T; exact Hall.
    + unfold pool_submit, submit, TaskQueue.push_back, TaskQueue.push_front.
      destruct T; simpl; try done; by destruct (tq (wb p)).
Qed.
Lemma workers_are_alive_run schedule p :
  workers_are_alive p → workers_are_alive (run schedule p).
Proof.
  revert p. induction schedule as [|e schedule IH]; intros p Hp; [done|].
  apply IH, workers_are_alive_fire, Hp.
Qed.

Lemma reachable_run schedule p : reachable p → reachable (run schedule p).
Proof.
  revert p. induction schedule as [|e schedule IH]; intros p Hp; [done|].
  apply IH. by constructor.
Qed.
End mission_facts.

Lemma destructor_waits_for_all_workers_witness :
  let p := WorkBranch.run (WorkBranch.steps [0; 0; 0; 0; 0; 0]%nat)
             (WorkBranch.pool_new (fn := nat) 2 WorkBranch.blocking) in
  let p0 := WorkBranch.pool_destructor_enter p in
  let p' := WorkBranch.run (WorkBranch.steps [0; 1; 0; 1; 0; 1; 0; 0]%nat) p0 in
  WorkBranch.workers_are_alive p
  ∧ WorkBranch.num_workers (WorkBranch.wb p) = 2
  ∧ WorkBranch.threads p !! 0%nat = Some (WorkBranch.Blocked 0)
  ∧ 0%nat ∈ WorkBranch.woken p0
  ∧ WorkBranch.threads (WorkBranch.mission 0%nat (WorkBranch.mission 0%nat p0)) !! 0%nat
    = Some (WorkBranch.LoopHead 0)
  ∧ WorkBranch.destructor_may_return (WorkBranch.wb p') = true
  ∧ WorkBranch.no_thread_alive p'.
Proof.
  intros p p0 p'.
  assert (Hp : WorkBranch.workers_are_alive p).
  { unfold p. generalize (WorkBranch.steps [0; 0; 0; 0; 0; 0]%nat).
    intros schedule. apply workers_are_alive_run, workers_are_alive_new. }
  assert (Hb : WorkBranch.threads p !! 0%nat = Some (WorkBranch.Blocked 0))
    by (by vm_compute).
  destruct (destructor_waits_for_all_workers p
              (WorkBranch.steps [0; 1; 0; 1; 0; 1; 0; 0]%nat) Hp)
    as ((_ & _ & _ & _ & _ & Hwake) & _ & _ & _ & Hgone).
  destruct (Hwake eq_refl 0%nat 0 Hb) as (Hwk & _ & Hhead).
  split_and!; [exact Hp|by vm_compute|exact Hb|exact Hwk| |by vm_compute|].
  - apply Hhead. by vm_compute.
  - apply Hgone. by vm_compute.
Defined.

(** C2, as stated, fails: a branch with one worker is destroyed; after
    three steps the worker has decremented [decline] to 0 and erased
    itself, so the wait of the destructor is over, while the detached
    thread has not ended: it is still on its way out of [mission]. *)
Lemma destructor_returns_before_threads_end :
  let p := WorkBranch.pool_new (fn := nat) 1 WorkBranch.lowlatancy in
  let p' := WorkBranch.run (WorkBranch.steps [0; 0; 0]%nat)
              (WorkBranch.pool_destructor_enter p) in
  WorkBranch.reachable p
  ∧ WorkBranch.decline (WorkBranch.wb p') = 0
  ∧ WorkBranch.destructor_may_return (WorkBranch.wb p') = true
  ∧ WorkBranch.workers (WorkBranch.wb p') = ∅
  ∧ WorkBranch.threads p' !! 0%nat = Some WorkBranch.Leaving
  ∧ WorkBranch.running (fn := nat) WorkBranch.Leaving = true
  ∧ ¬ WorkBranch.all_threads_ended p'
  ∧ WorkBranch.all_threads_ended (WorkBranch.mission 0%nat p').
Proof.
  intros p p'. split_and!; try by vm_compute.
  - constructor.
  - intros H. by specialize (H 0%nat WorkBranch.Leaving eq_refl).
  - assert (WorkBranch.threads (WorkBranch.mission 0%nat p')
            = {[0%nat := WorkBranch.Exited]}) as Ht by (by vm_compute).
    intros t c Hc. rewrite Ht in Hc.
    by apply lookup_singleton_Some in Hc as [_ <-].
Qed.

(** C1, as stated, fails: a new branch with one worker enters [wait_tasks],
    a task is submitted while [m_is_waiting] is true, and the next iteration
    of the worker pops that task and then runs it, with the flag still set. *)
Lemma worker_pops_while_waiting :
  let p := WorkBranch.pool_submit WorkBranch.normal 7%nat []
             (WorkBranch.wait_tasks_enter
                (WorkBranch.pool_new (fn := nat) 1 WorkBranch.lowlatancy)) in
  let self : WorkBranch.tid := 0%nat in
  WorkBranch.reachable p
  ∧ WorkBranch.m_is_waiting (WorkBranch.wb p) = true
  ∧ WorkBranch.threads p !! self = Some (WorkBranch.LoopHead 0)
  ∧ WorkBranch.tq (WorkBranch.wb p) = [WorkBranch.wrapped 7%nat]
  ∧ WorkBranch.tq (WorkBranch.wb (WorkBranch.iteration self p)) = []
  ∧ ¬ WorkBranch.pops_nothing_while_waiting p self
  ∧ WorkBranch.threads (WorkBranch.iteration self p) !! self
    = Some (WorkBranch.Executing (WorkBranch.wrapped 7%nat))
  ∧ WorkBranch.m_is_waiting
      (WorkBranch.wb (WorkBranch.run (WorkBranch.steps [self; self; self]) p)) = true
  ∧ WorkBranch.executed (WorkBranch.run (WorkBranch.steps [self; self; self]) p)
    = [WorkBranch.wrapped 7%nat].
Proof.
  intros p self. split_and!; try by vm_compute.
  - apply reachable_submit, WorkBranch.reach_wait_enter;
      [apply WorkBranch.reach_new|by vm_compute].
  - intros H. specialize (H eq_refl). by vm_compute in H.
Qed.

Lemma mission_while_waiting_witness :
  let p := WorkBranch.pool_submit WorkBranch.normal 7%nat []
             (WorkBranch.wait_tasks_enter
                (WorkBranch.pool_new (fn := nat) 1 WorkBranch.lowlatancy)) in
  WorkBranch.m_is_waiting (WorkBranch.wb p) = true
  ∧ WorkBranch.tq (WorkBranch.wb (WorkBranch.iteration 0%nat p)) = []
  ∧ WorkBranch.threads (WorkBranch.iteration 0%nat p) !! 0%nat
    = Some (WorkBranch.Executing (WorkBranch.wrapped 7%nat)).
Proof.
  intros p.
  assert (Hw : WorkBranch.m_is_waiting (WorkBranch.wb p) = true) by (by vm_compute).
  split; [exact Hw|].
  destruct (mission_while_waiting p 0%nat Hw) as (Hhead & _).
  destruct (Hhead 0) as (_ & Hpop & _); [by vm_compute|].
  apply (Hpop (WorkBranch.wrapped 7%nat) []); [by vm_compute|by vm_compute].
Defined.
(** ** The supervisor *)

Section supervisor_facts.
Import Supervisor.
Implicit Types (s : supervisor) (rs : list request).

Lemma m_tval_serve s rs : m_tval (foldl serve s rs) = m_tval s.
Proof.
  revert s. induction rs as [|r rs IH]; intros s; [done|].
  simpl. rewrite IH. by destruct r.
Qed.

Lemma new_Returns ndebug wmin wmax tout s :
  new ndebug wmin wmax tout = Returns s →
  s = Sup false (to_size_t wmin) (to_size_t wmax) (to_uint tout) (to_uint tout) [].
Proof.
  unfold new, assert. intros H.
  repeat case_match; by inversion H.
Qed.

Example suspend_default_is_max s : m_tout (suspend_default s) = UINT_MAX.
Proof. reflexivity. Qed.

(** C9.  Whatever calls were served since the construction with period
    [tick_ms], [suspend(t)] followed by [proceed()] leaves the current
    period [m_tout] at the period given to the constructor (as an
    [unsigned int]); that holds for every [t], the default [-1] of an
    endless suspension included. *)
Theorem suspend_proceed_restores :
  ∀ ndebug wmin wmax tick_ms rs t s,
    new ndebug wmin wmax tick_ms = Returns s →
    let s' := foldl serve s rs in
    m_tout (proceed (suspend t s')) = to_uint tick_ms
    ∧ m_tout (proceed (suspend_default s')) = to_uint tick_ms
    ∧ (0 ≤ tick_ms ≤ UINT_MAX →
       m_tout (proceed (suspend t s')) = tick_ms
       ∧ m_tout (proceed (suspend_default s')) = tick_ms)
    ∧ m_tout s = to_uint tick_ms.
Proof.
  intros ndebug wmin wmax tick_ms rs t s Hs s'.
  assert (Hv : m_tval s' = to_uint tick_ms).
  { unfold s'. rewrite m_tval_serve. by rewrite (new_Returns _ _ _ _ _ Hs). }
  assert (Hp : ∀ t', m_tout (proceed (suspend t' s')) = to_uint tick_ms).
  { intros t'. exact Hv. }
  split_and!; try apply Hp.
  - intros Hr. unfold suspend_default.
    rewrite (Hp t), (Hp (-1)), to_uint_id by done. done.
  - by rewrite (new_Returns _ _ _ _ _ Hs).
Qed.
End supervisor_facts.

Lemma suspend_proceed_restores_witness :
  Supervisor.new false 2 16 500
  = Returns (Supervisor.Sup false 2 16 500 500 [])
  ∧ Supervisor.m_tout
      (Supervisor.suspend_default (Supervisor.Sup false 2 16 500 500 [])) = 4294967295
  ∧ Supervisor.m_tout
      (Supervisor.proceed
         (Supervisor.suspend_default
            (foldl Supervisor.serve (Supervisor.Sup false 2 16 500 500 [])
               [Supervisor.AddSuper 1%nat; Supervisor.Suspend 20]))) = 500.
Proof.
  split_and!; [reflexivity|reflexivity|].
  apply (suspend_proceed_restores false 2 16 500
           [Supervisor.AddSuper 1%nat; Supervisor.Suspend 20] (-1)
           (Supervisor.Sup false 2 16 500 500 []) eq_refl).
Defined.

Section scaling_facts.
Import Supervisor.
Context {fn : Type}.
Implicit Types (s : supervisor) (b : WorkBranch.workbranch fn).

Lemma iter_add_worker_log n b :
  Nat.iter n (λ st : WorkBranch.workbranch fn * list call,
                (WorkBranch.add_worker st.1, st.2 ++ [AddWorker])) (b, [])
  = (Nat.iter n WorkBranch.add_worker b, replicate n AddWorker).
Proof.
  induction n as [|n IH]; [done|].
  rewrite !Nat.iter_succ, IH. simpl. by rewrite <-replicate_S_end.
Qed.

(** C3, with the bound the code asserts.  On a branch that has no more
    than [wmax] workers whenever it has queued tasks, one pass of the
    loop body makes exactly the calls of the scaling rule:
    [min(wmax - workers, max(0, tasks - workers))] calls of [add_worker]
    when [tasks > 0], one call of [del_worker] when [tasks == 0] and
    [workers > wmin], no call otherwise; the branch afterwards has that
    many more workers, or one more pending retirement. *)
Theorem mission_branch_scaling :
  ∀ ndebug s b,
    in_size_t (m_wmin s) →
    in_size_t (m_wmax s) →
    in_size_t (WorkBranch.num_tasks b) →
    (0 < WorkBranch.num_tasks b → WorkBranch.num_workers b ≤ m_wmax s) →
    ∃ b',
      mission_branch ndebug s b = Returns (b', scaling_rule s b)
      ∧ (0 < WorkBranch.num_tasks b →
         scaling_rule s b
         = replicate
             (Z.to_nat (Z.min (m_wmax s - WorkBranch.num_workers b)
                          (Z.max 0 (WorkBranch.num_tasks b - WorkBranch.num_workers b))))
             AddWorker
         ∧ WorkBranch.num_workers b'
           = WorkBranch.num_workers b
             + Z.min (m_wmax s - WorkBranch.num_workers b)
                 (Z.max 0 (WorkBranch.num_tasks b - WorkBranch.num_workers b))
         ∧ WorkBranch.decline b' = WorkBranch.decline b)
      ∧ (WorkBranch.num_tasks b = 0 → m_wmin s < WorkBranch.num_workers b →
         scaling_rule s b = [DelWorker]
         ∧ b' = (WorkBranch.del_worker b).1.2
         ∧ WorkBranch.num_workers b' = WorkBranch.num_workers b)
      ∧ (WorkBranch.num_tasks b = 0 → WorkBranch.num_workers b ≤ m_wmin s →
         scaling_rule s b = [] ∧ b' = b).
Proof.
  intros ndebug s b [Hn0 Hn1] [Hm0 Hm1] [Ht0 Ht1] Hle.
  unfold mission_branch, scaling_rule.
  set (workers := WorkBranch.num_workers b) in *.
  set (tasks := WorkBranch.num_tasks b) in *.
  assert (Hw0 : 0 ≤ workers) by (unfold workers, WorkBranch.num_workers; lia).
  destruct (0 <? tasks) eqn:Hpos; [apply Z.ltb_lt in Hpos|apply Z.ltb_ge in Hpos].
  - specialize (Hle Hpos).
    assert (Hassert : ∀ k : outcome (WorkBranch.workbranch fn * list call),
               assert ndebug (workers <=? m_wmax s) k = k).
    { intros k. unfold assert. destruct ndebug; [done|].
      by assert ((workers <=? m_wmax s) = true) as -> by lia. }
    rewrite Hassert, iter_add_worker_log.
    assert (Hn : Z.min (to_size_t (m_wmax s - workers))
                   (if workers <? tasks then to_size_t (tasks - workers) else 0)
                 = Z.min (m_wmax s - workers) (Z.max 0 (tasks - workers))).
    { rewrite (to_size_t_id (m_wmax s - workers)) by (unfold SIZE_MAX in *; lia).
      destruct (workers <? tasks) eqn:Hlt;
        [apply Z.ltb_lt in Hlt|apply Z.ltb_ge in Hlt].
      - rewrite to_size_t_id by (unfold SIZE_MAX in *; lia). lia.
      - lia. }
    rewrite Hn. eexists. split; [reflexivity|].
    destruct (iter_add_worker
                (Z.to_nat (Z.min (m_wmax s - workers) (Z.max 0 (tasks - workers)))) b)
      as (H1 & _ & _ & H4).
    split_and!.
    + intros _. split_and!; [done| |done].
      rewrite H1. fold workers. lia.
    + intros. lia.
    + intros. lia.
  - assert (tasks = 0) as Ht by lia.
    destruct (m_wmin s <? workers) eqn:Hmin;
      [apply Z.ltb_lt in Hmin|apply Z.ltb_ge in Hmin].
    + assert (Hne : WorkBranch.workers b ≠ ∅).
      { intros He. unfold workers, WorkBranch.num_workers in *.
        rewrite He, size_empty in Hmin. lia. }
      unfold WorkBranch.del_worker. rewrite decide_False by done.
      eexists. split; [reflexivity|]. split_and!; intros; try lia. done.
    + eexists. split; [reflexivity|]. split_and!; intros; try lia. done.
Qed.
End scaling_facts.

(** C3, as stated, fails where the code asserts: a supervisor with
    [wmax = 2] on a branch that has 3 workers and 5 queued tasks.  The rule
    asks for [min(2 - 3, max(0, 5 - 3))] calls, that is none; the tick
    stops at [assert(workNums <= m_wmax)], and with the assertion compiled
    out [m_wmax - workNums] wraps around and [add_worker] is called
    twice. *)
Lemma scaling_rule_fails_above_wmax :
  let s := Supervisor.Sup false 0 2 500 500 [] in
  let b := Nat.iter 5 (λ b, (WorkBranch.submit WorkBranch.normal 0%nat [] b).1)
             (WorkBranch.new (fn := nat) 3 WorkBranch.lowlatancy) in
  Supervisor.new false 0 2 500 = Returns s
  ∧ WorkBranch.num_workers b = 3
  ∧ WorkBranch.num_tasks b = 5
  ∧ Supervisor.scaling_rule s b = []
  ∧ Supervisor.mission_branch false s b = Aborts
  ∧ (∃ b', Supervisor.mission_branch true s b
           = Returns (b', [Supervisor.AddWorker; Supervisor.AddWorker])
           ∧ WorkBranch.num_workers b' = 5)
  ∧ ¬ Supervisor.follows_scaling_rule false s b
  ∧ ¬ Supervisor.follows_scaling_rule true s b.
Proof.
  intros s b. split_and!; try by vm_compute.
  - eexists. split; by vm_compute.
  - intros [b' H]. vm_compute in H. discriminate H.
  - intros [b' H]. vm_compute in H. discriminate H.
Qed.

Lemma mission_branch_scaling_witness :
  let s := Supervisor.Sup false 2 16 50 50 [] in
  let b := Nat.iter 64 (λ b, (WorkBranch.submit WorkBranch.normal 0%nat [] b).1)
             (WorkBranch.new (fn := nat) 2 WorkBranch.lowlatancy) in
  WorkBranch.num_workers b = 2
  ∧ WorkBranch.num_tasks b = 64
  ∧ ∃ b', Supervisor.mission_branch false s b
          = Returns (b', replicate 14 Supervisor.AddWorker)
          ∧ WorkBranch.num_workers b' = 16.
Proof.
  intros s b.
  assert (Hw : WorkBranch.num_workers b = 2) by (by vm_compute).
  assert (Ht : WorkBranch.num_tasks b = 64) by (by vm_compute).
  split_and!; [exact Hw|exact Ht|].
  destruct (mission_branch_scaling false s b) as (b' & Hr & Hup & _ & _).
  - unfold in_size_t, SIZE_MAX. simpl. lia.
  - unfold in_size_t, SIZE_MAX. simpl. lia.
  - rewrite Ht. unfold in_size_t, SIZE_MAX. lia.
  - rewrite Hw. simpl. lia.
  - exists b'. destruct Hup as (Hrule & Hn & _); [rewrite Ht; lia|].
    rewrite Hr, Hrule, Hn, Hw, Ht. split; reflexivity.
Defined.

(** ** The workspace *)

Section workspace_facts.
Import Workspace.
Context {fn : Type}.
Implicit Types (w : workspace fn) (l : list (addr * WorkBranch.workbranch fn)) (b s : addr).

Lemma find_first_None b l it : find_first b l it = None ↔ b ∉ l.*1.
Proof.
  revert it. induction l as [|up l IH]; intros it; simpl.
  - split; [intros _; apply not_elem_of_nil|done].
  - destruct (up.1 =? b)%nat eqn:He;
      [apply Nat.eqb_eq in He|apply Nat.eqb_neq in He].
    + split; [done|]. intros Hn. exfalso. apply Hn. rewrite He. left.
    + rewrite IH, not_elem_of_cons. split; [by intros ?; split; [congruence|]|by intros [_ ?]].
Qed.

Lemma find_first_Some b l it i :
  find_first b l it = Some i →
  (it ≤ i)%nat
  ∧ (∃ obj, l !! (i - it)%nat = Some (b, obj))
  ∧ (∀ j up, (j < i - it)%nat → l !! j = Some up → up.1 ≠ b).
Proof.
  revert it. induction l as [|up l IH]; intros it; simpl; [done|].
  destruct (up.1 =? b)%nat eqn:He;
    [apply Nat.eqb_eq in He|apply Nat.eqb_neq in He].
  - intros [= <-]. rewrite Nat.sub_diag. split_and!; [done| |intros; lia].
    destruct up as [a obj]. simpl in He. subst a. by exists obj.
  - intros (Hle & [obj Hobj] & Hbefore)%IH.
    replace (i - it)%nat with (S (i - S it)) by lia.
    split_and!; [lia|by exists obj|].
    intros [|j] up' Hj; simpl.
    + by intros [= <-].
    + apply Hbefore. lia.
Qed.

Lemma find_first_elem b l :
  b ∈ l.*1 → ∃ i, find_first b l 0 = Some i.
Proof.
  intros Hin. destruct (find_first b l 0) as [i|] eqn:Hf; [by exists i|].
  by apply find_first_None in Hf.
Qed.


Lemma detach_found b w i :
  let l := m_branchList w in
  find_first b l 0 = Some i →
  detach b w
  = (l !! i,
     WS (if decide (S i = length l) then begin_ (delete i l) else i)
        (delete i l) (m_superMap w)).
Proof.
  intros l Hf. unfold detach, begin_. fold l. rewrite Hf.
  destruct (find_first_Some _ _ _ _ Hf) as (_ & [obj Hobj] & _).
  rewrite Nat.sub_0_r in Hobj.
  assert (Hlen : length (delete i l) = (length l - 1)%nat).
  { apply length_delete. eauto. }
  assert (Hi : (i < length l)%nat) by (eapply lookup_lt_Some; eauto).
  f_equal. f_equal. unfold end_. rewrite Hlen.
  destruct (decide (S i = length l)) as [He|Hne].
  - destruct (length l - 1 =? 0)%nat eqn:H0; [apply Nat.eqb_eq in H0; lia|].
    by assert ((i =? length l - 1)%nat = true) as -> by (apply Nat.eqb_eq; lia).
  - assert ((length l - 1 =? 0)%nat = false) as -> by (apply Nat.eqb_neq; lia).
    by assert ((i =? length l - 1)%nat = false) as -> by (apply Nat.eqb_neq; lia).
Qed.


Lemma submit_runs ndebug T f fs w A B :
  let l := m_branchList w in
  l !! cur w = Some A → l !! forward l (cur w) = Some B →
  submit ndebug T f fs w
  = Returns
      (if WorkBranch.num_tasks B.2 <? WorkBranch.num_tasks A.2
       then WS (forward l (cur w))
              (<[forward l (cur w) := (B.1, (WorkBranch.submit T f fs B.2).1)]> l)
              (m_superMap w)
       else WS (forward l (cur w))
              (<[cur w := (A.1, (WorkBranch.submit T f fs A.2).1)]> l)
              (m_superMap w)).
Proof.
  intros l HA HB. unfold submit, assert. cbv zeta. fold l.
  rewrite HA, HB.
  assert ((length l =? 0)%nat = false) as ->.
  { apply Nat.eqb_neq. apply lookup_lt_Some in HA. lia. }
  cbn [negb].
  destruct ndebug;
    by destruct (WorkBranch.num_tasks B.2 <? WorkBranch.num_tasks A.2).
Qed.

Lemma forward_lt l pos : (pos < length l)%nat → (forward l pos < length l)%nat.
Proof.
  intros Hlt. unfold forward, end_, begin_.
  destruct (S pos =? length l)%nat eqn:He;
    [apply Nat.eqb_eq in He|apply Nat.eqb_neq in He]; lia.
Qed.


(** C10.  [detach] with a handle whose address is not in the branch list
    returns [nullptr] and leaves the workspace as it is; so does
    [detach] with a supervisor handle whose address is no key of the
    map.  Hence detaching the same handle a second time returns
    [nullptr] and changes nothing (for a branch, when its address was
    owned once). *)
Theorem detach_absent_handle :
  ∀ w b s,
    (b ∉ (m_branchList w).*1 → detach b w = (None, w))
    ∧ (m_superMap w !! s = None → detach_supervisor s w = (None, w))
    ∧ (owns_once w →
       detach b (detach b w).2 = (None, (detach b w).2))
    ∧ detach_supervisor s (detach_supervisor s w).2
      = (None, (detach_supervisor s w).2).
Proof.
  intros w b s. split_and!.
  - intros Hn. unfold detach. apply find_first_None with (it := 0%nat) in Hn.
    unfold begin_. by rewrite Hn.
  - intros Hn. unfold detach_supervisor. by rewrite Hn.
  - intros Hnd. unfold detach at 2 3. unfold begin_.
    destruct (find_first b (m_branchList w) 0) as [i|] eqn:Hf; simpl.
    + apply find_first_Some in Hf as (_ & [obj Hobj] & _).
      rewrite Nat.sub_0_r in Hobj.
      assert (Hgone : b ∉ (delete i (m_branchList w)).*1).
      { unfold owns_once in Hnd.
        rewrite <-(take_drop_middle _ _ _ Hobj) in Hnd.
        rewrite delete_take_drop.
        rewrite !fmap_app, fmap_cons in *. simpl in Hnd.
        apply NoDup_app in Hnd as (_ & Hdisj & Hnd).
        apply NoDup_cons in Hnd as [Hnotin _].
        intros [Hin|Hin]%elem_of_app; [|done].
        apply (Hdisj _ Hin). left. }
      unfold detach. simpl. unfold begin_.
      apply find_first_None with (it := 0%nat) in Hgone. by rewrite Hgone.
    + unfold detach. unfold begin_. by rewrite Hf.
  - unfold detach_supervisor at 2 3.
    destruct (m_superMap w !! s) eqn:Hs; simpl.
    + unfold detach_supervisor. simpl. by rewrite lookup_delete_eq.
    + unfold detach_supervisor. by rewrite Hs.
Qed.

(** C6, as the code has it.  [detach(bid)] of an attached branch removes
    the first node holding that address, returns its ownership, and
    leaves the other nodes and the supervisors alone.  Wherever the
    cursor stood before, it is then set to the node that followed the
    removed one, to the first node when the removed one was last, and
    to [end()] when the list has become empty. *)
Theorem detach_moves_cursor :
  ∀ w b,
    b ∈ (m_branchList w).*1 →
    ∃ i obj,
      let l := m_branchList w in
      let w' := (detach b w).2 in
      find_first b l 0 = Some i
      ∧ l !! i = Some (b, obj)
      ∧ (∀ j up, (j < i)%nat → l !! j = Some up → up.1 ≠ b)
      ∧ (detach b w).1 = Some (b, obj)
      ∧ m_branchList w' = delete i l
      ∧ m_superMap w' = m_superMap w
      ∧ cur w' = (if decide (S i = length l) then begin_ (delete i l) else i)
      ∧ at_cursor w' = (if decide (S i = length l) then head (delete i l) else l !! S i)
      ∧ (m_branchList w' = [] → cur w' = end_ (m_branchList w'))
      ∧ cursor_ok w'.
Proof.
  intros w b Hin. destruct (find_first_elem b _ Hin) as [i Hf].
  destruct (find_first_Some _ _ _ _ Hf) as (_ & [obj Hobj] & Hbefore).
  rewrite Nat.sub_0_r in Hobj, Hbefore.
  exists i, obj. intros l w'. fold l in Hf, Hobj, Hbefore.
  pose proof (detach_found b w i Hf) as Hd. fold l in Hd.
  assert (Hw' : w' = WS (if decide (S i = length l) then begin_ (delete i l) else i)
                        (delete i l) (m_superMap w)).
  { unfold w'. by rewrite Hd. }
  assert (Hlen : length (delete i l) = (length l - 1)%nat).
  { apply length_delete. eauto. }
  split_and!; try done.
  - by rewrite Hd.
  - by rewrite Hw'.
  - by rewrite Hw'.
  - by rewrite Hw'.
  - unfold at_cursor. rewrite Hw'. simpl.
    destruct (decide (S i = length l)); [by rewrite head_lookup|].
    by rewrite list_lookup_delete_ge.
  - rewrite Hw'. simpl. intros He. rewrite He in Hlen. simpl in Hlen.
    rewrite He. destruct (decide (S i = length l)); [done|].
    apply lookup_lt_Some in Hobj. lia.
  - rewrite Hw'. unfold cursor_ok, begin_. simpl. rewrite Hlen.
    apply lookup_lt_Some in Hobj.
    destruct (decide (S i = length l)); [|left; lia].
    destruct (decide (length l = 1%nat)); [right|left; lia].
    assert (delete i l = []) as ->; [|done].
    apply length_zero_iff_nil. lia.
Qed.

(** C4.  On a workspace with at least one branch, [submit] takes [A] at
    the cursor, moves the cursor one node on (from the last node to the
    first), takes [B] there, and passes the task to [B] when [B] has
    fewer queued tasks than [A] and to [A] otherwise; no other branch
    changes and the cursor is left on [B]. *)
Theorem submit_two_choice :
  ∀ ndebug T f fs w,
    m_branchList w ≠ [] →
    cursor_ok w →
    ∃ A B w',
      let l := m_branchList w in
      let next := if decide (S (cur w) = length l) then 0%nat else S (cur w) in
      l !! cur w = Some A
      ∧ l !! next = Some B
      ∧ submit ndebug T f fs w = Returns w'
      ∧ cur w' = next
      ∧ fst <$> at_cursor w' = Some B.1
      ∧ m_superMap w' = m_superMap w
      ∧ (WorkBranch.num_tasks B.2 < WorkBranch.num_tasks A.2 →
         m_branchList w' = <[next := (B.1, (WorkBranch.submit T f fs B.2).1)]> l)
      ∧ (WorkBranch.num_tasks A.2 ≤ WorkBranch.num_tasks B.2 →
         m_branchList w' = <[cur w := (A.1, (WorkBranch.submit T f fs A.2).1)]> l).
Proof.
  intros ndebug T f fs w Hne [Hlt|[He _]]; [|done].
  set (l := m_branchList w) in *.
  destruct (lookup_lt_is_Some_2 l _ Hlt) as [A HA].
  pose proof (forward_lt l _ Hlt) as Hfw.
  destruct (lookup_lt_is_Some_2 l _ Hfw) as [B HB].
  assert (Hnext : forward l (cur w)
                  = if decide (S (cur w) = length l) then 0%nat else S (cur w)).
  { unfold forward, end_, begin_.
    destruct (decide _) as [->|Hn]; [by rewrite Nat.eqb_refl|].
    by apply Nat.eqb_neq in Hn as ->. }
  pose proof (submit_runs ndebug T f fs w A B HA HB) as Hrun. fold l in Hrun.
  eexists A, B, _. intros l0 next. subst l0 next. fold l. rewrite <-Hnext.
  split_and!; [done|done|exact Hrun| | | | |].
  - by case_match.
  - unfold at_cursor. destruct (_ <? _) eqn:Hc; simpl.
    + by rewrite list_lookup_insert_eq.
    + destruct (decide (cur w = forward l (cur w))) as [Heq|Hneq].
      * rewrite <-Heq at 1. rewrite list_lookup_insert_eq by done. simpl.
        rewrite <-Heq in HB. congruence.
      * rewrite list_lookup_insert_ne by done. by rewrite HB.
  - by case_match.
  - intros Hc%Z.ltb_lt. by rewrite Hc.
  - intros Hc%Z.ltb_ge. by rewrite Hc.
Qed.



End workspace_facts.

(** C6, as stated, fails: with branches 1, 2, 3 attached the cursor is on
    branch 1; detaching branch 2 puts the cursor on branch 3. *)
Lemma detach_moves_cursor_off_its_branch :
  let b0 := WorkBranch.new (fn := nat) 1 WorkBranch.lowlatancy in
  let w := Workspace.WS 0 [(1, b0); (2, b0); (3, b0)]%nat ∅ in
  Workspace.attach false 3%nat b0 (Workspace.WS 0 [(1, b0); (2, b0)]%nat ∅)
  = Returns (w, 3%nat)
  ∧ Workspace.cur w = 0%nat
  ∧ Workspace.at_cursor w = Some (1%nat, b0)
  ∧ fst <$> (Workspace.detach 2%nat w).1 = Some 2%nat
  ∧ Workspace.cur (Workspace.detach 2%nat w).2 = 1%nat
  ∧ Workspace.at_cursor (Workspace.detach 2%nat w).2 = Some (3%nat, b0)
  ∧ ¬ Workspace.cursor_kept_unless_detached 2%nat w.
Proof.
  intros b0 w. split_and!; try by vm_compute.
  intros H. unfold Workspace.cursor_kept_unless_detached in H.
  assert (Hc : Workspace.at_cursor w ≠ None) by (by vm_compute).
  assert (Hb : fst <$> Workspace.at_cursor w ≠ Some 2%nat) by (by vm_compute).
  specialize (H Hc Hb). by vm_compute in H.
Qed.

Lemma detach_moves_cursor_witness :
  let b0 := WorkBranch.new (fn := nat) 1 WorkBranch.lowlatancy in
  let w := Workspace.WS 0 [(1, b0); (2, b0); (3, b0)]%nat ∅ in
  2%nat ∈ (Workspace.m_branchList w).*1
  ∧ (Workspace.detach 2%nat w).1 = Some (2%nat, b0)
  ∧ (Workspace.m_branchList (Workspace.detach 2%nat w).2).*1 = [1; 3]%nat
  ∧ Workspace.cur (Workspace.detach 2%nat w).2 = 1%nat
  ∧ fst <$> Workspace.at_cursor (Workspace.detach 2%nat w).2 = Some 3%nat.
Proof.
  intros b0 w.
  assert (Hin : 2%nat ∈ (Workspace.m_branchList w).*1).
  { simpl. right. left. }
  split; [exact Hin|].
  destruct (detach_moves_cursor w 2%nat Hin)
    as (i & obj & Hf & Hobj & _ & Hup & Hl & _ & Hcur & Hat & _).
  vm_compute in Hf. injection Hf as <-.
  vm_compute in Hobj. injection Hobj as <-.
  split_and!.
  - exact Hup.
  - rewrite Hl. reflexivity.
  - rewrite Hcur. reflexivity.
  - rewrite Hat. reflexivity.
Defined.

Lemma submit_two_choice_witness :
  let bA := Nat.iter 2 (λ b, (WorkBranch.submit WorkBranch.normal 0%nat [] b).1)
              (WorkBranch.new (fn := nat) 1 WorkBranch.lowlatancy) in
  let bB := WorkBranch.new (fn := nat) 1 WorkBranch.lowlatancy in
  let w := Workspace.WS 0 [(1%nat, bA); (2%nat, bB)] ∅ in
  Workspace.m_branchList w ≠ []
  ∧ Workspace.cursor_ok w
  ∧ ∃ w', Workspace.submit false WorkBranch.urgent 9%nat [] w = Returns w'
          ∧ Workspace.cur w' = 1%nat
          ∧ Workspace.m_branchList w'
            = [(1%nat, bA); (2%nat, (WorkBranch.submit WorkBranch.urgent 9%nat [] bB).1)].
Proof.
  intros bA bB w.
  assert (Hne : Workspace.m_branchList w ≠ []) by done.
  assert (Hok : Workspace.cursor_ok w) by (left; simpl; lia).
  split_and!; [exact Hne|exact Hok|].
  destruct (submit_two_choice false WorkBranch.urgent 9%nat [] w Hne Hok)
    as (A & B & w' & HA & HB & Hrun & Hcur & _ & _ & Hlt & _).
  vm_compute in HA. injection HA as <-.
  vm_compute in HB. injection HB as <-.
  exists w'. split_and!.
  - exact Hrun.
  - rewrite Hcur. reflexivity.
  - rewrite Hlt; [reflexivity|]. by vm_compute.
Defined.

(** ** Further properties of the worker threads *)

Section worker_accounting.
Import WorkBranch.
Context {fn : Type}.
Implicit Types (b : workbranch fn) (p q : pool fn) (c : pc fn) (self t : tid).
Implicit Types (P : pc fn → bool) (e : event) (schedule : list event).

Ltac step_cases p self Hself :=
  unfold mission;
  destruct (threads p !! self) as [[n|n|task0|n|n| |n|n|n|n|n|n|]|] eqn:Hself;
  unfold loop_head, pop, run_task, check_decline, retire, leave, check_waiting,
    report_idle, resume, block, doze, wake_up, under_lok.

Lemma mission_accounting p self :
  workers_are_alive p → 0 ≤ decline (wb p) →
  num_workers (wb (mission self p)) - decline (wb (mission self p))
  = num_workers (wb p) - decline (wb p)
  ∧ 0 ≤ decline (wb (mission self p)) ≤ decline (wb p)
  ∧ workers (wb (mission self p)) ⊆ workers (wb p).
Proof.
  intros Hinv Hd. step_cases p self Hself;
    try (repeat case_match; split_and!; (done || lia)).
  destruct (decide (lok_free p)); [|split_and!; (done || lia)].
  destruct (0 <? decline (wb p)) eqn:Hpos;
    [apply Z.ltb_lt in Hpos|split_and!; (done || lia)].
  assert (self ∈ workers (wb p)) as Hin by (apply Hinv; eauto).
  unfold num_workers. simpl.
  rewrite size_difference by (by apply singleton_subseteq_l).
  rewrite size_singleton.
  assert (size (workers (wb p)) ≠ 0%nat).
  { intros ?%size_empty_iff. set_solver. }
  split_and!; [lia|lia|lia|]. apply subseteq_difference_l. done.
Qed.

Lemma fire_accounting p e :
  workers_are_alive p → 0 ≤ decline (wb p) →
  num_workers (wb (fire e p)) - decline (wb (fire e p))
  = num_workers (wb p) - decline (wb p)
  ∧ 0 ≤ decline (wb (fire e p)) ≤ decline (wb p)
  ∧ workers (wb (fire e p)) ⊆ workers (wb p).
Proof.
  destruct e as [t|t]; [apply mission_accounting|]. intros _ Hd.
  change (fire (Spurious t) p) with (spurious t p).
  destruct (spurious_frame t p) as (-> & _). split_and!; (done || lia).
Qed.

(** X1.  Worker steps keep [num_workers - decline] as it is: a worker
    leaves the map only by taking one pending retirement request with it.
    So under every schedule at most [decline] workers retire, [decline]
    never goes below 0, and no worker is added. *)
Theorem retirement_accounting :
  ∀ p schedule,
    workers_are_alive p →
    0 ≤ decline (wb p) →
    let p' := run schedule p in
    num_workers (wb p') - decline (wb p') = num_workers (wb p) - decline (wb p)
    ∧ 0 ≤ decline (wb p') ≤ decline (wb p)
    ∧ workers (wb p') ⊆ workers (wb p)
    ∧ num_workers (wb p) - decline (wb p) ≤ num_workers (wb p').
Proof.
  intros p schedule. revert p.
  induction schedule as [|e schedule IH]; intros p Hinv Hd p'.
  - subst p'. unfold run. simpl. split_and!; (done || lia).
  - destruct (fire_accounting p e Hinv Hd) as (H1 & H2 & H3).
    destruct (IH (fire e p)) as (I1 & I2 & I3 & I4);
      [by apply workers_are_alive_fire|lia|].
    change p' with (run schedule (fire e p)).
    split_and!; [lia|lia|lia|by etrans|lia].
Qed.

Lemma threads_in_leaves P p p' self c :
  threads p' = <[self := c]> (threads p) → P c = false →
  (size (threads_in P p') ≤ size (threads_in P p))%nat
  ∧ (self ∈ threads_in P p →
     (1 + size (threads_in P p') ≤ size (threads_in P p))%nat).
Proof.
  intros Ht Hc. rewrite (threads_in_insert P p p' self c Ht), Hc. split.
  - apply subseteq_size. set_solver.
  - intros Hin. rewrite size_difference by (by apply singleton_subseteq_l).
    rewrite size_singleton.
    assert (size (threads_in P p) ≠ 0%nat); [|lia].
    intros ?%size_empty_iff. set_solver.
Qed.

(** One step of a branch that is winding down: only a thread that had
    read [decline <= 0] before takes a task, and it takes one. *)
Lemma winding_down_step p e :
  winding_down p →
  ∃ j, (j + size (threads_in is_popping (fire e p))
        ≤ size (threads_in is_popping p))%nat
       ∧ tq (wb (fire e p)) = drop j (tq (wb p))
       ∧ (∀ task,
            task ∈ executed (fire e p)
            ∨ (∃ t, threads (fire e p) !! t = Some (Executing task)) →
            task ∈ executed p
            ∨ (∃ t, threads p !! t = Some (Executing task))
            ∨ task ∈ take j (tq (wb p))).
Proof.
  intros [Hinv Hd]. destruct e as [self|self]; cycle 1.
  { change (fire (Spurious self) p) with (spurious self p).
    destruct (spurious_frame self p) as (Hw & Ht & Hex & _).
    exists 0%nat. rewrite Hw, Hex, (threads_in_same _ _ _ Ht), Ht.
    split_and!; [lia|done|]. intros task [?|?]; eauto. }
  cbn [fire].
  assert (Hidle : ∀ p', threads p' = threads p → tq (wb p') = tq (wb p) →
            executed p' = executed p →
            ∃ j, (j + size (threads_in is_popping p')
                  ≤ size (threads_in is_popping p))%nat
                 ∧ tq (wb p') = drop j (tq (wb p))
                 ∧ (∀ task,
                      task ∈ executed p'
                      ∨ (∃ t, threads p' !! t = Some (Executing task)) →
                      task ∈ executed p
                      ∨ (∃ t, threads p !! t = Some (Executing task))
                      ∨ task ∈ take j (tq (wb p)))).
  { intros p' Ht Hq Hex. exists 0%nat.
    rewrite (threads_in_same _ _ _ Ht), Ht, Hq, Hex.
    split_and!; [lia|done|]. intros task [?|?]; eauto. }
  assert (Hmove : ∀ c' p', threads p' = <[self := c']> (threads p) →
            tq (wb p') = tq (wb p) → executed p' = executed p →
            is_popping c' = false → (∀ task, c' ≠ Executing task) →
            ∃ j, (j + size (threads_in is_popping p')
                  ≤ size (threads_in is_popping p))%nat
                 ∧ tq (wb p') = drop j (tq (wb p))
                 ∧ (∀ task,
                      task ∈ executed p'
                      ∨ (∃ t, threads p' !! t = Some (Executing task)) →
                      task ∈ executed p
                      ∨ (∃ t, threads p !! t = Some (Executing task))
                      ∨ task ∈ take j (tq (wb p)))).
  { intros c' p' Ht Hq Hex Hc' Hne. exists 0%nat. rewrite Hq, Hex.
    destruct (threads_in_leaves is_popping p p' self c' Ht Hc') as [Hle _].
    split_and!; [lia|done|]. intros task [?|[t Hrun]]; [by left|].
    right. left. exists t. rewrite Ht in Hrun.
    destruct (decide (self = t)) as [->|Hnq].
    - rewrite lookup_insert_eq in Hrun. injection Hrun as ->. by destruct (Hne task).
    - by rewrite lookup_insert_ne in Hrun. }
  step_cases p self Hself; try (by apply Hidle).
  - assert (self ∈ workers (wb p)) as Hin by (apply Hinv; eauto).
    assert (0 < decline (wb p)).
    { rewrite Hd. unfold num_workers.
      assert (size (workers (wb p)) ≠ 0%nat); [|lia].
      intros ?%size_empty_iff. set_solver. }
    assert ((decline (wb p) <=? 0) = false) as -> by lia.
    by apply (Hmove (CheckDecline n)).
  - destruct (tq (wb p)) as [|task rest] eqn:Hq; cbn [TaskQueue.try_pop].
    + by apply (Hmove (CheckDecline n)).
    + exists 1%nat.
      destruct (threads_in_leaves is_popping p
                  (goto self (Executing task) (set_wb (set_tq rest (wb p)) p))
                  self (Executing task) eq_refl eq_refl) as [_ Hlt].
      split_and!.
      * apply Hlt, elem_of_threads_in. eauto.
      * done.
      * cbn [executed goto set_wb threads take].
        intros task' [?|[t Hrun]]; [by left|].
        destruct (decide (self = t)) as [->|Hnq].
        -- rewrite lookup_insert_eq in Hrun. injection Hrun as <-.
           right. right. apply list_elem_of_here.
        -- rewrite lookup_insert_ne in Hrun by done. right. left. eauto.
  - exists 0%nat.
    destruct (threads_in_leaves is_popping p
                (goto self (LoopHead 0) (set_executed (executed p ++ [task0]) p))
                self (LoopHead 0) eq_refl eq_refl) as [Hle _].
    split_and!; [lia|done|].
    cbn [executed goto set_executed threads].
    intros task [[?|Heq%list_elem_of_singleton]%elem_of_app|[t Hrun]].
    + by left.
    + subst task. right. left. eauto.
    + right. left. exists t.
      destruct (decide (self = t)) as [->|Hnq].
      * by rewrite lookup_insert_eq in Hrun.
      * by rewrite lookup_insert_ne in Hrun.
  - case_match; [by apply (Hmove (Retiring n))|by apply (Hmove (CheckWaiting n))].
  - case_match; [|by apply Hidle].
    case_match; [by apply (Hmove Leaving)|by apply (Hmove (LoopHead n))].
  - by apply (Hmove Exited).
  - repeat case_match; eapply Hmove; done.
  - case_match; [|by apply Hidle].
    case_match; [by apply (Hmove (Parked n))|].
    cbn [wb log set_wb m_is_waiting set_task_done_workers].
    case_match; [by apply Hidle|by apply (Hmove (LoopHead n))].
  - case_match; [|by apply Hidle].
    case_match; [by apply Hidle|by apply (Hmove (LoopHead n))].
  - repeat case_match; try (by apply Hidle); eapply Hmove; done.
  - by apply (Hmove (Blocked n)).
  - case_match; [by apply (Hmove (Blocking n))|by apply Hidle].
Qed.

Lemma winding_down_drops schedule :
  ∀ q, winding_down q →
       ∃ k, (k + size (threads_in is_popping (run schedule q))
             ≤ size (threads_in is_popping q))%nat
            ∧ tq (wb (run schedule q)) = drop k (tq (wb q))
            ∧ (∀ task,
                 task ∈ executed (run schedule q)
                 ∨ (∃ t, threads (run schedule q) !! t = Some (Executing task)) →
                 task ∈ executed q
                 ∨ (∃ t, threads q !! t = Some (Executing task))
                 ∨ task ∈ take k (tq (wb q))).
Proof.
  induction schedule as [|e schedule IH]; intros q Hq.
  - exists 0%nat. split_and!; [done|done|]. intros task [?|?]; eauto.
  - destruct (winding_down_step q e Hq) as (j & Hj & Hqj & Htj).
    destruct (IH (fire e q) (winding_down_fire _ _ Hq)) as (k & Hk & Hqk & Htk).
    change (run (e :: schedule) q) with (run schedule (fire e q)).
    exists (j + k)%nat. split_and!; [lia|by rewrite Hqk, Hqj, drop_drop|].
    intros task Htask. rewrite <-take_take_drop.
    destruct (Htk task Htask) as [Hin|[Hin|Hin]].
    + destruct (Htj task (or_introl Hin)) as [?|[?|?]]; eauto.
      right. right. apply elem_of_app. by left.
    + destruct (Htj task (or_intror Hin)) as [?|[?|?]]; eauto.
      right. right. apply elem_of_app. by left.
    + right. right. apply elem_of_app. right. by rewrite <-Hqj.
Qed.

(** X2.  Once the destructor has set [decline], no worker reads
    [decline <= 0] as true again.  Under every schedule the queue only
    loses tasks at its front, at most one for each worker that had read
    [decline <= 0] and not yet called [try_pop] when the destructor was
    entered; the tasks still run are those and the ones a worker had in
    hand.  With no such worker the queue stays as it was: what is queued
    at that moment is dropped. *)
Theorem destructor_drops_queued_tasks :
  ∀ p schedule,
    workers_are_alive p →
    let p' := run schedule (pool_destructor_enter p) in
    (∃ k, (k + size (threads_in is_popping p')
           ≤ size (threads_in is_popping p))%nat
          ∧ tq (wb p') = drop k (tq (wb p))
          ∧ (∀ task, task ∈ executed p' →
                     task ∈ executed p
                     ∨ (∃ t, threads p !! t = Some (Executing task))
                     ∨ task ∈ take k (tq (wb p))))
    ∧ (threads_in is_popping p = ∅ → tq (wb p') = tq (wb p)).
Proof.
  intros p schedule Hinv p'.
  destruct (winding_down_drops schedule (pool_destructor_enter p))
    as (k & Hk & Hqk & Htk); [by split|].
  fold p' in Hk, Hqk, Htk.
  change (threads_in is_popping (pool_destructor_enter p))
    with (threads_in is_popping p) in Hk.
  change (tq (wb (pool_destructor_enter p))) with (tq (wb p)) in Hqk, Htk.
  change (executed (pool_destructor_enter p)) with (executed p) in Htk.
  change (threads (pool_destructor_enter p)) with (threads p) in Htk.
  split.
  - exists k. split_and!; [done|done|]. intros task Hin. apply Htk. by left.
  - intros He. rewrite He, size_empty in Hk.
    assert (k = 0%nat) as -> by lia. by rewrite Hqk.
Qed.

(** X3.  With one worker thread the tasks run in the order in which they
    stand in the queue, each once: under every schedule, the tasks run so
    far, the task in hand and the queue, put end to end, are the same
    list as before. *)
Theorem single_worker_runs_in_queue_order :
  ∀ p self c schedule,
    threads p = {[self := c]} →
    let p' := run schedule p in
    ∃ c', threads p' = {[self := c']}
          ∧ executed p' ++ inflight c' ++ tq (wb p')
            = executed p ++ inflight c ++ tq (wb p).
Proof.
  intros p self c schedule. revert p c.
  induction schedule as [|e schedule IH]; intros p c Hthreads p'; [by exists c|].
  assert (Hstep : ∃ c1, threads (fire e p) = {[self := c1]}
            ∧ executed (fire e p) ++ inflight c1 ++ tq (wb (fire e p))
              = executed p ++ inflight c ++ tq (wb p)).
  { destruct e as [t|t]; cycle 1.
    { change (fire (Spurious t) p) with (spurious t p).
      destruct (spurious_frame t p) as (Hw & Ht & Hex & _).
      exists c. by rewrite Hw, Ht, Hex. }
    cbn [fire]. unfold mission. rewrite Hthreads.
    destruct (decide (self = t)) as [<-|Hne].
    - rewrite lookup_singleton_eq.
      assert (Hgo : ∀ c1 p1, threads p1 = <[self := c1]> (threads p) →
                executed p1 ++ inflight c1 ++ tq (wb p1)
                = executed p ++ inflight c ++ tq (wb p) →
                ∃ c1, threads p1 = {[self := c1]}
                      ∧ executed p1 ++ inflight c1 ++ tq (wb p1)
                        = executed p ++ inflight c ++ tq (wb p)).
      { intros c1 p1 Ht Heq. exists c1. split; [|done].
        rewrite Ht, Hthreads. apply insert_singleton_eq. }
      destruct c as [n|n|task0|n|n| |n|n|n|n|n|n|];
        unfold loop_head, pop, run_task, check_decline, retire, leave,
          check_waiting, report_idle, resume, block, doze, wake_up, under_lok;
        try (by eexists).
      + case_match; eapply Hgo; done.
      + destruct (tq (wb p)) as [|task rest] eqn:Hq; cbn [TaskQueue.try_pop];
          eapply Hgo; try done; cbn; by rewrite ?Hq.
      + eapply Hgo; [done|]. cbn. by rewrite <-app_assoc.
      + case_match; eapply Hgo; done.
      + repeat case_match; try (by eexists); eapply Hgo; done.
      + eapply Hgo; done.
      + repeat case_match; eapply Hgo; done.
      + cbn [wb log set_wb m_is_waiting set_task_done_workers].
        repeat case_match; try (by eexists); eapply Hgo; done.
      + repeat case_match; try (by eexists); eapply Hgo; done.
      + repeat case_match; try (by eexists); eapply Hgo; done.
      + eapply Hgo; done.
      + case_match; [|by eexists]. eapply Hgo; done.
    - rewrite lookup_singleton_ne by done. exists c. by rewrite Hthreads. }
  destruct Hstep as (c1 & Ht1 & Heq1).
  destruct (IH (fire e p) c1 Ht1) as (c' & Ht' & Heq').
  exists c'. change p' with (run schedule (fire e p)).
  split; [done|]. by rewrite Heq', Heq1.
Qed.
End worker_accounting.

(** ** The two waits of [wait_tasks] *)

Section wait_tasks_facts.
Import WorkBranch.
Context {fn : Type}.
Implicit Types (b : workbranch fn) (p q : pool fn) (c : pc fn) (self t : tid).
Implicit Types (P : pc fn → bool) (e : event) (schedule : list event).

Lemma threads_in_goto P p q self c c0 :
  threads p !! self = Some c0 → threads q = threads p →
  Z.of_nat (size (threads_in P (goto self c q)))
  = Z.of_nat (size (threads_in P p)) + Z.b2z (P c) - Z.b2z (P c0).
Proof.
  intros Hself Hq.
  rewrite (threads_in_insert P p (goto self c q) self c)
    by (cbn [threads goto]; by rewrite Hq).
  assert (Hold : self ∈ threads_in P p ↔ P c0 = true).
  { rewrite elem_of_threads_in. split; [|by eauto].
    intros (c' & Hc' & HP). congruence. }
  destruct (P c) eqn:HPc, (P c0) eqn:HPc0; simpl.
  - assert ({[self]} ∪ threads_in P p = threads_in P p) as ->; [|lia].
    apply subseteq_union_1_L, singleton_subseteq_l. by apply Hold.
  - rewrite size_union, size_singleton; [lia|].
    apply disjoint_singleton_l. intros ?%Hold. done.
  - assert (self ∈ threads_in P p) as Hin by (by apply Hold).
    rewrite size_difference by (by apply singleton_subseteq_l).
    rewrite size_singleton.
    assert (size (threads_in P p) ≠ 0%nat); [|lia].
    intros ?%size_empty_iff. set_solver.
  - assert (threads_in P p ∖ {[self]} = threads_in P p) as ->; [|lia].
    apply difference_disjoint_L, disjoint_singleton_r. intros ?%Hold. done.
Qed.

Lemma threads_in_bound P p : (size (threads_in P p) ≤ size (threads p))%nat.
Proof.
  unfold threads_in. rewrite size_dom. apply map_subseteq_size, map_filter_subseteq.
Qed.

Lemma size_threads_goto p q self c c0 :
  threads p !! self = Some c0 → threads q = threads p →
  size (threads (goto self c q)) = size (threads p).
Proof.
  intros Hself Hq. simpl. rewrite Hq.
  rewrite <-!size_dom, dom_insert_L.
  f_equal. apply elem_of_dom_2 in Hself. set_solver.
Qed.

Ltac step_cases p self Hself :=
  unfold mission;
  destruct (threads p !! self) as [[n|n|task0|n|n| |n|n|n|n|n|n|]|] eqn:Hself;
  unfold loop_head, pop, run_task, check_decline, retire, leave, check_waiting,
    report_idle, resume, block, doze, wake_up, under_lok.

Ltac count_step p Hself :=
  lazymatch goal with
  | |- context [goto ?s ?c ?q] =>
      pose proof (threads_in_goto is_parked p q s c _ Hself eq_refl) as Hpk;
      pose proof (threads_in_goto in_wait_block p q s c _ Hself eq_refl) as Hwt;
      pose proof (threads_in_goto past_pop p q s c _ Hself eq_refl) as Hpp;
      pose proof (size_threads_goto p q s c _ Hself eq_refl) as Hsz
  end.





Lemma workers_bound p :
  workers_are_alive p → (size (workers (wb p)) ≤ size (threads p))%nat.
Proof.
  intros Hinv. rewrite <-size_dom. apply subseteq_size.
  intros t (c & Hc & _)%Hinv. by apply elem_of_dom_2 in Hc.
Qed.

Lemma resuming_mission m p self :
  resuming m p →
  resuming m (mission self p)
  ∧ workers (wb (mission self p)) = workers (wb p).
Proof.
  intros (Hinv & Hw & Hd & H0 & Hsum & Hle & Hb).
  pose proof (workers_are_alive_mission p self Hinv) as Ha.
  pose proof (threads_in_bound in_wait_block p) as Hpb.
  pose proof (workers_bound p Hinv) as Hwb.
  unfold resuming. revert Ha.
  step_cases p self Hself; rewrite ?Hw, ?Hd; cbn [Z.leb Z.ltb Z.compare];
    cbn [wb log set_wb m_is_waiting set_task_done_workers
           waiting_finished_worker]; rewrite ?Hw;
    repeat case_match; intros Ha; try (by split_and!).
  all: count_step p Hself; simpl in *; unfold num_workers in *; simpl in *.
  all: try assert (to_size_t (waiting_finished_worker (wb p) + 1)
                   = waiting_finished_worker (wb p) + 1) as Hnowrap
      by (apply to_size_t_id; unfold SIZE_MAX in *; lia).
  all: split_and!; try done; rewrite ?Hwt, ?Hnowrap; lia.
Qed.

Lemma resuming_fire n p e :
  resuming n p →
  resuming n (fire e p) ∧ workers (wb (fire e p)) = workers (wb p).
Proof.
  destruct e as [t|t]; [apply resuming_mission|].
  intros (Hinv & Hw & Hd & H0 & Hsum & Hle & Hb).
  pose proof (workers_are_alive_fire p (Spurious t) Hinv) as Ha.
  change (fire (Spurious t) p) with (spurious t p) in *.
  destruct (spurious_frame t p) as (Hwb & Ht & _).
  unfold resuming. rewrite Hwb, !(threads_in_same _ _ _ Ht), Ht. by split_and!.
Qed.

Lemma resuming_run n schedule :
  ∀ p, resuming n p →
       resuming n (run schedule p) ∧ workers (wb (run schedule p)) = workers (wb p).
Proof.
  induction schedule as [|e schedule IH]; intros p Hp; [done|].
  destruct (resuming_fire n p e Hp) as [Hp' Hw'].
  destruct (IH _ Hp') as [Hr Hwr]. split; [exact Hr|].
  cbn [run foldl] in *. unfold run in Hwr. by rewrite Hwr.
Qed.


Lemma mission_other_threads p self t :
  t ≠ self → threads (mission self p) !! t = threads p !! t.
Proof.
  intros Hne. step_cases p self Hself;
    repeat case_match; cbn [threads goto log set_wb set_executed set_woken];
    by rewrite ?lookup_insert_ne.
Qed.

Lemma resuming_leaves_block m p self c :
  resuming m p →
  threads (mission self p) !! self = Some c → in_wait_block c = true →
  threads p !! self = Some c ∧ ¬ lok_free p.
Proof.
  intros (_ & Hw & Hd & _).
  step_cases p self Hself; rewrite ?Hw, ?Hd; cbn [Z.leb Z.ltb Z.compare];
    cbn [wb log set_wb m_is_waiting set_task_done_workers]; rewrite ?Hw;
    repeat case_match;
    cbn [threads goto log set_wb set_executed set_woken];
    rewrite ?lookup_insert_eq, ?Hself; intros [= <-]; done.
Qed.

Lemma resuming_all_leave m schedule :
  ∀ p (D : tid → Prop),
    resuming m p →
    (∀ t c, threads p !! t = Some c → in_wait_block c = true → ¬ D t) →
    ∀ t c, threads (run schedule p) !! t = Some c → in_wait_block c = true →
           ¬ D t ∧ t ∉ unhindered schedule p.
Proof.
  induction schedule as [|e schedule IH]; intros p D Hres Hpk t c Hc Hin.
  - split; [by eapply Hpk|apply not_elem_of_empty].
  - destruct (resuming_fire m p e Hres) as [Hres' _].
    change (run (e :: schedule) p) with (run schedule (fire e p)) in Hc.
    destruct e as [self|self].
    + destruct (IH (mission self p) (λ t, D t ∨ (t = self ∧ lok_free p)) Hres')
        with (t := t) (c := c) as [Hd Hs]; [|done|done|].
      * intros t' c' Hc' Hin' HD.
        destruct (decide (t' = self)) as [->|Hne'].
        -- destruct (resuming_leaves_block m p self c' Hres Hc' Hin')
             as [Hold Hheld].
           destruct HD as [HD|[_ Hfree]]; [|done]. by eapply Hpk.
        -- rewrite mission_other_threads in Hc' by done.
           destruct HD as [HD|[? _]]; [|done]. by eapply Hpk.
      * split; [tauto|]. cbn [unhindered fire].
        apply not_elem_of_union. split; [|done].
        destruct (decide (lok_free p)); [|apply not_elem_of_empty].
        apply not_elem_of_singleton. intros ->. tauto.
    + destruct (spurious_frame self p) as (_ & Ht & _).
      destruct (IH (spurious self p) D Hres') with (t := t) (c := c)
        as [Hd Hs]; [|done|done|].
      * intros t' c'. rewrite Ht. apply Hpk.
      * split; [done|]. cbn [unhindered fire].
        apply not_elem_of_union. split; [apply not_elem_of_empty|done].
Qed.

(** Under the other two strategies no worker comes to [task_cv.wait], so
    no worker holds [lok] from one step to the next. *)
Lemma never_at_task_cv p e :
  wait_strategy (wb p) ≠ blocking → threads_in at_task_cv p = ∅ →
  wait_strategy (wb (fire e p)) = wait_strategy (wb p)
  ∧ threads_in at_task_cv (fire e p) = ∅.
Proof.
  intros Hs Hnone. destruct e as [self|self]; cycle 1.
  { change (fire (Spurious self) p) with (spurious self p).
    destruct (spurious_frame self p) as (Hw & Ht & _).
    by rewrite Hw, (threads_in_same _ _ _ Ht). }
  cbn [fire].
  assert (Hmove : ∀ c' p', threads p' = <[self := c']> (threads p) →
            wait_strategy (wb p') = wait_strategy (wb p) →
            at_task_cv c' = false →
            wait_strategy (wb p') = wait_strategy (wb p)
            ∧ threads_in at_task_cv p' = ∅).
  { intros c' p' Ht Hw Hc'. split; [done|].
    rewrite (threads_in_insert _ p p' self c' Ht), Hc', Hnone. set_solver. }
  assert (Hnot : ∀ c, threads p !! self = Some c → at_task_cv c = false).
  { intros c Hc. destruct (at_task_cv c) eqn:Hat; [|done].
    assert (self ∈ threads_in at_task_cv p) by (apply elem_of_threads_in; eauto).
    set_solver. }
  step_cases p self Hself; try done;
    try (by specialize (Hnot _ eq_refl));
    repeat case_match; try done; eapply Hmove; done.
Qed.

Lemma unhindered_all schedule :
  ∀ p t, wait_strategy (wb p) ≠ blocking → threads_in at_task_cv p = ∅ →
         Step t ∈ schedule → t ∈ unhindered schedule p.
Proof.
  induction schedule as [|e schedule IH]; intros p t Hs Hnone Hin.
  - by apply not_elem_of_nil in Hin.
  - destruct (never_at_task_cv p e Hs Hnone) as [Hs' Hnone'].
    cbn [unhindered]. apply elem_of_union.
    apply elem_of_cons in Hin as [<-|Hin].
    + left. rewrite decide_True; [by apply elem_of_singleton|].
      unfold lok_free. apply leibniz_equiv. intros u. split; [|set_solver].
      intros (c & Hc & Hdz)%elem_of_threads_in.
      assert (u ∈ threads_in at_task_cv p) as Hu.
      { apply elem_of_threads_in. exists c. split; [done|]. by destruct c. }
      set_solver.
    + right. apply IH; [by rewrite Hs'|done|done].
Qed.

(** X6.  If [wait_tasks] leaves its first wait when every running worker
    is parked on [thread_cv] and no retirement is pending, then under
    every schedule of the workers the predicate of the second wait holds
    exactly when no worker is left inside the waiting block; it holds as
    soon as every worker has taken a step at a moment when no other
    worker held [lok] (under the strategies other than blocking: as soon
    as every worker has taken a step), and [wait_tasks] then returns with
    [waiting_finished_worker] back at 0 and the flag cleared.  The worker
    map is as before. *)
Theorem wait_tasks_returns_after_full_phase1 :
  ∀ p schedule,
    workers_are_alive p →
    decline (wb p) = 0 →
    waiting_finished_worker (wb p) = 0 →
    Z.of_nat (size (threads p)) ≤ SIZE_MAX →
    (∀ t c, threads p !! t = Some c → alive c = true → is_parked c = true) →
    let p0 := (wait_tasks_resume p).2 in
    let p' := run schedule p0 in
    (all_resumed (wb p') = true ↔ threads_in in_wait_block p' = ∅)
    ∧ (workers (wb p) ⊆ unhindered schedule p0
       ∨ (wait_strategy (wb p) ≠ blocking
          ∧ ∀ t, t ∈ workers (wb p) → Step t ∈ schedule) →
       all_resumed (wb p') = true
       ∧ waiting_finished_worker (wb (wait_tasks_leave p')) = 0
       ∧ m_is_waiting (wb (wait_tasks_leave p')) = false)
    ∧ workers (wb p') = workers (wb p).
Proof.
  intros p schedule Hinv Hd Hwf Hb Hall p0 p'.
  assert (Hblock : threads_in in_wait_block p = workers (wb p)).
  { apply set_eq. intros t. rewrite elem_of_threads_in, (Hinv t).
    split; intros (c & Hc & HP); exists c; (split; [done|]).
    - by destruct c.
    - pose proof (Hall _ _ Hc HP). by destruct c. }
  assert (Hp0 : resuming (num_workers (wb p)) p0).
  { split_and!; try done.
    - change (0 ≤ waiting_finished_worker (wb p)). lia.
    - change (waiting_finished_worker (wb p)
              + Z.of_nat (size (threads_in in_wait_block p)) = num_workers (wb p)).
      unfold num_workers. rewrite Hblock. lia. }
  destruct (resuming_run _ schedule _ Hp0)
    as [(Hinv' & Hw' & _ & H0 & Hsum & _) Hwk].
  fold p' in Hinv', Hw', H0, Hsum, Hwk.
  change (workers (wb p0)) with (workers (wb p)) in Hwk.
  assert (Hiff : all_resumed (wb p') = true ↔ threads_in in_wait_block p' = ∅).
  { unfold all_resumed, num_workers in *. rewrite Hwk, Z.leb_le.
    split.
    - intros Hle. apply leibniz_equiv, size_empty_iff. lia.
    - intros He. rewrite He, size_empty in Hsum. lia. }
  split_and!; [done| |done].
  intros Hsched.
  assert (Hran : workers (wb p) ⊆ unhindered schedule p0).
  { destruct Hsched as [Hran|[Hs Hsteps]]; [done|].
    intros t Ht. apply unhindered_all; [done| |by apply Hsteps].
    apply leibniz_equiv. intros u. split; [|set_solver].
    intros (c & Hc & Hat)%elem_of_threads_in.
    change (threads p0) with (threads p) in Hc.
    assert (alive c = true) as Ha by (by destruct c).
    pose proof (Hall _ _ Hc Ha). by destruct c. }
  assert (Hres : all_resumed (wb p') = true).
  { apply Hiff. apply set_eq. intros t. split; [|set_solver].
    intros (c & Hc & HP)%elem_of_threads_in. exfalso.
    destruct (resuming_all_leave _ schedule _ (λ _, False) Hp0) with (t := t) (c := c)
      as [_ Hnot]; [tauto|done|done|].
    apply Hnot, Hran. rewrite <-Hwk. apply Hinv'.
    exists c. split; [done|]. by destruct c. }
  split; [done|]. unfold wait_tasks_leave. rewrite Hres. by cbn.
Qed.
End wait_tasks_facts.

Lemma retirement_accounting_witness :
  let p := (WorkBranch.pool_del_worker
              (WorkBranch.pool_new (fn := nat) 3 WorkBranch.lowlatancy)).2 in
  let schedule := WorkBranch.steps [0; 0; 0; 1; 1; 1; 2; 2; 2]%nat in
  let p' := WorkBranch.run schedule p in
  WorkBranch.workers_are_alive p
  ∧ WorkBranch.decline (WorkBranch.wb p) = 1
  ∧ WorkBranch.num_workers (WorkBranch.wb p') = 2
  ∧ WorkBranch.threads p' !! 0%nat = Some WorkBranch.Leaving
  ∧ WorkBranch.num_workers (WorkBranch.wb p) - WorkBranch.decline (WorkBranch.wb p)
    ≤ WorkBranch.num_workers (WorkBranch.wb p').
Proof.
  intros p schedule p'.
  assert (Hp : WorkBranch.workers_are_alive p).
  { apply reachable_workers_are_alive, WorkBranch.reach_del_worker;
      [apply WorkBranch.reach_new|by vm_compute]. }
  split_and!; [exact Hp|by vm_compute|by vm_compute|by vm_compute|].
  apply (retirement_accounting p schedule Hp).
  by vm_compute.
Defined.

Lemma destructor_drops_queued_tasks_witness :
  let p := WorkBranch.pool_submit WorkBranch.normal 8%nat []
             (WorkBranch.pool_submit WorkBranch.normal 7%nat []
                (WorkBranch.run (WorkBranch.steps [0]%nat)
                   (WorkBranch.pool_new (fn := nat) 2 WorkBranch.balance))) in
  let schedule := WorkBranch.steps [0; 1; 0; 1; 0; 1; 0; 0]%nat in
  let p' := WorkBranch.run schedule (WorkBranch.pool_destructor_enter p) in
  WorkBranch.workers_are_alive p
  ∧ WorkBranch.threads p !! 0%nat = Some (WorkBranch.Popping 0)
  ∧ WorkBranch.destructor_may_return (WorkBranch.wb p') = true
  ∧ WorkBranch.executed p' = [WorkBranch.wrapped 7%nat]
  ∧ WorkBranch.tq (WorkBranch.wb p') = [WorkBranch.wrapped 8%nat]
  ∧ (∃ k, (k + size (WorkBranch.threads_in WorkBranch.is_popping p')
           ≤ size (WorkBranch.threads_in WorkBranch.is_popping p))%nat
          ∧ WorkBranch.tq (WorkBranch.wb p') = drop k (WorkBranch.tq (WorkBranch.wb p))
          ∧ (∀ task, task ∈ WorkBranch.executed p' →
                     task ∈ WorkBranch.executed p
                     ∨ (∃ t, WorkBranch.threads p !! t
                             = Some (WorkBranch.Executing task))
                     ∨ task ∈ take k (WorkBranch.tq (WorkBranch.wb p)))).
Proof.
  intros p schedule p'.
  assert (Hp : WorkBranch.workers_are_alive p).
  { apply reachable_workers_are_alive.
    do 2 apply reachable_submit.
    apply reachable_run, WorkBranch.reach_new. }
  split_and!; [exact Hp|by vm_compute..|].
  apply (destructor_drops_queued_tasks p schedule Hp).
Defined.

Lemma single_worker_runs_in_queue_order_witness :
  let p := WorkBranch.pool_submit WorkBranch.urgent 9%nat []
             (WorkBranch.pool_submit WorkBranch.normal 8%nat []
                (WorkBranch.pool_submit WorkBranch.normal 7%nat []
                   (WorkBranch.pool_new (fn := nat) 1 WorkBranch.lowlatancy))) in
  let schedule := WorkBranch.steps [0; 0; 0; 0; 0; 0]%nat in
  let p' := WorkBranch.run schedule p in
  WorkBranch.threads p = {[0%nat := WorkBranch.LoopHead 0]}
  ∧ WorkBranch.executed p' = [WorkBranch.wrapped 9%nat; WorkBranch.wrapped 7%nat]
  ∧ ∃ c', WorkBranch.threads p' = {[0%nat := c']}
          ∧ WorkBranch.executed p' ++ WorkBranch.inflight c'
              ++ WorkBranch.tq (WorkBranch.wb p')
            = [WorkBranch.wrapped 9%nat; WorkBranch.wrapped 7%nat;
               WorkBranch.wrapped 8%nat].
Proof.
  intros p schedule p'.
  assert (Hp : WorkBranch.threads p = {[0%nat := WorkBranch.LoopHead 0]})
    by (by vm_compute).
  split_and!; [exact Hp|by vm_compute|].
  apply (single_worker_runs_in_queue_order p 0%nat (WorkBranch.LoopHead 0)
           schedule Hp).
Defined.



Lemma wait_tasks_returns_after_full_phase1_witness :
  let p := WorkBranch.run (WorkBranch.steps [0; 0; 0; 0; 0; 1; 1; 1; 1; 1]%nat)
             (WorkBranch.wait_tasks_enter
                (WorkBranch.pool_new (fn := nat) 2 WorkBranch.lowlatancy)) in
  let schedule := [WorkBranch.Step 0%nat; WorkBranch.Step 1%nat] in
  let p' := WorkBranch.run schedule (WorkBranch.wait_tasks_resume p).2 in
  WorkBranch.workers_are_alive p
  ∧ WorkBranch.threads p
    = <[0%nat := WorkBranch.Parked 0]> (<[1%nat := WorkBranch.Parked 0]> ∅)
  ∧ (WorkBranch.wait_tasks_resume p).1 = true
  ∧ WorkBranch.waiting_finished_worker (WorkBranch.wb p') = 2
  ∧ WorkBranch.all_resumed (WorkBranch.wb p') = true
  ∧ WorkBranch.waiting_finished_worker (WorkBranch.wb (WorkBranch.wait_tasks_leave p')) = 0
  ∧ WorkBranch.m_is_waiting (WorkBranch.wb (WorkBranch.wait_tasks_leave p')) = false.
Proof.
  intros p schedule p'.
  assert (Hp : WorkBranch.workers_are_alive p).
  { apply reachable_workers_are_alive, reachable_run.
    apply WorkBranch.reach_wait_enter; [apply WorkBranch.reach_new|by vm_compute]. }
  assert (Ht : WorkBranch.threads p
               = <[0%nat := WorkBranch.Parked 0]> (<[1%nat := WorkBranch.Parked 0]> ∅))
    by (by vm_compute).
  assert (Hw : WorkBranch.workers (WorkBranch.wb p) = {[0%nat]} ∪ {[1%nat]})
    by (by vm_compute).
  assert (Hs : WorkBranch.wait_strategy (WorkBranch.wb p) ≠ WorkBranch.blocking).
  { assert (WorkBranch.wait_strategy (WorkBranch.wb p) = WorkBranch.lowlatancy) as ->
      by (by vm_compute). done. }
  split_and!; [exact Hp|exact Ht|by vm_compute|by vm_compute|..].
  all: apply (wait_tasks_returns_after_full_phase1 p schedule Hp);
    [by vm_compute|by vm_compute|by vm_compute| |].
  all: try (intros t c Hc _; rewrite Ht in Hc;
            apply lookup_insert_Some in Hc as [[_ <-]|[_ Hc]]; [done|];
            apply lookup_insert_Some in Hc as [[_ <-]|[_ Hc]]; [done|];
            by rewrite lookup_empty in Hc).
  all: right; split; [exact Hs|]; intros t; rewrite Hw;
    intros [->%elem_of_singleton| ->%elem_of_singleton]%elem_of_union;
    [apply list_elem_of_here|apply list_elem_of_further, list_elem_of_here].
Defined.

(** ** Further properties of the branch and its queue *)

Section branch_extras.
Import WorkBranch.
Context {fn : Type}.
Implicit Types (b : workbranch fn) (p q : pool fn) (c : pc fn) (self t : tid).

(** X7.  In every pool a client can build, the keys of the worker map are
    exactly the threads still in the loop of [mission]: a worker erases
    its own entry in the block in which it decrements [decline], before
    it returns, and [add_worker] stores every thread it starts.  Each of
    them is a thread that has not ended. *)
Theorem workers_are_the_running_threads :
  ∀ p, reachable p →
       workers (wb p) = threads_in alive p
       ∧ num_workers (wb p) = Z.of_nat (size (threads_in alive p))
       ∧ threads_in alive p ⊆ threads_in running p.
Proof.
  intros p Hp%reachable_workers_are_alive.
  assert (workers (wb p) = threads_in alive p) as Heq.
  { apply set_eq. intros t. rewrite elem_of_threads_in. apply Hp. }
  split_and!; [done|unfold num_workers; by rewrite Heq|].
  intros t (c & Hc & Ha)%elem_of_threads_in. apply elem_of_threads_in.
  exists c. split; [done|]. by destruct c.
Qed.

(** X8.  The wait of the destructor can end: from a branch that is not in
    the middle of [wait_tasks], with no worker between the test of the
    predicate of [task_cv.wait] and its sleep, some schedule of the
    workers brings [decline] to 0; then every thread has left the loop of
    [mission], and the queue has lost at most one task at its front for
    each worker that was about to call [try_pop] when the destructor was
    entered: with no such worker it holds what it held then. *)
Theorem destructor_wait_ends :
  ∀ p,
    workers_are_alive p →
    m_is_waiting (wb p) = false →
    lok_free p →
    blocking_only p →
    ∃ ts,
      let p' := run (steps ts) (pool_destructor_enter p) in
      destructor_may_return (wb p') = true
      ∧ no_thread_alive p'
      ∧ (∃ k, (k ≤ size (threads_in is_popping p))%nat
              ∧ tq (wb p') = drop k (tq (wb p)))
      ∧ (threads_in is_popping p = ∅ → tq (wb p') = tq (wb p)).
Proof.
  intros p Hinv Hw Hlok Hblk.
  destruct (destructor_can_return p Hinv Hw Hlok Hblk) as [ts Hret].
  exists ts. intros p'. fold p' in Hret.
  assert (H0 : winding_down (pool_destructor_enter p)) by (by split).
  pose proof (winding_down_run (steps ts) _ H0) as Hwd. fold p' in Hwd.
  destruct (winding_down_drops (steps ts) _ H0) as (k & Hk & Hqk & _).
  fold p' in Hk, Hqk.
  change (threads_in is_popping (pool_destructor_enter p))
    with (threads_in is_popping p) in Hk.
  change (tq (wb (pool_destructor_enter p))) with (tq (wb p)) in Hqk.
  split_and!; [done| | |].
  - apply winding_down_no_thread; [done|].
    unfold destructor_may_return in Hret. lia.
  - exists k. split; [lia|done].
  - intros He. rewrite He, size_empty in Hk.
    assert (k = 0%nat) as -> by lia. by rewrite Hqk.
Qed.

Lemma num_tasks_submit T f fs b :
  num_tasks (submit T f fs b).1 = num_tasks b + 1.
Proof.
  unfold submit, num_tasks, TaskQueue.getLength,
    TaskQueue.push_back, TaskQueue.push_front.
  destruct T; simpl; rewrite ?length_app; simpl; lia.
Qed.

Lemma deliver_notify_one (asleep : gset tid) (wo : gset tid * list tid) :
  let w' := (deliver asleep wo (notify_one task_cv)).1 in
  (size (w' ∖ wo.1) ≤ 1)%nat
  ∧ w' ∖ wo.1 ⊆ asleep
  ∧ (asleep ⊈ wo.1 → w' ⊈ wo.1).
Proof.
  cbn [deliver fst].
  set (sleepers := asleep ∖ wo.1).
  assert (Hhead : ∀ o, head (elements sleepers) = o →
                       match o with
                       | Some t => t ∈ sleepers
                       | None => sleepers = ∅
                       end).
  { intros o <-. destruct (elements sleepers) as [|t l] eqn:He; simpl.
    - apply leibniz_equiv, elements_empty_inv. by rewrite He.
    - apply elem_of_elements. rewrite He. apply list_elem_of_here. }
  assert (Hchosen :
            ∀ o, o = match wo.2 with
                     | t :: _ => if decide (t ∈ sleepers) then Some t
                                 else head (elements sleepers)
                     | [] => head (elements sleepers)
                     end →
                 match o with
                 | Some t => t ∈ sleepers
                 | None => sleepers = ∅
                 end).
  { intros o ->. destruct (wo.2) as [|t l]; [by apply Hhead|].
    destruct (decide (t ∈ sleepers)); [done|by apply Hhead]. }
  specialize (Hchosen _ eq_refl). revert Hchosen.
  generalize (match wo.2 with
              | t :: _ => if decide (t ∈ sleepers) then Some t
                          else head (elements sleepers)
              | [] => head (elements sleepers)
              end).
  intros [t|] Ht; subst sleepers.
  - split_and!.
    + assert (({[t]} ∪ wo.1) ∖ wo.1 = {[t]}) as -> by set_solver.
      by rewrite size_singleton.
    + set_solver.
    + intros _ Hsub. set_solver.
  - split_and!.
    + assert (wo.1 ∖ wo.1 = ∅) as -> by set_solver. rewrite size_empty. lia.
    + set_solver.
    + intros Hne _. apply Hne. intros x Hx.
      destruct (decide (x ∈ wo.1)) as [|Hnx]; [done|].
      assert (x ∈ asleep ∖ wo.1) as Hin by (by apply elem_of_difference).
      rewrite Ht in Hin. by apply not_elem_of_empty in Hin.
Qed.

Lemma woken_mission p self t :
  t ∉ woken p → t ∉ woken (mission self p).
Proof.
  intros Hn. unfold mission.
  destruct (threads p !! self) as [[n|n|task0|n|n| |n|n|n|n|n|n|]|] eqn:Hself;
    unfold loop_head, pop, run_task, check_decline, retire, leave, check_waiting,
      report_idle, resume, block, doze, wake_up, under_lok;
    repeat case_match; cbn [woken goto log set_wb set_executed set_woken];
    set_solver.
Qed.

Lemma asleep_stays p self t n :
  threads p !! t = Some (Blocked n) → t ∉ woken p →
  threads (mission self p) !! t = Some (Blocked n) ∧ t ∉ woken (mission self p).
Proof.
  intros Ht Hn. split; [|by apply woken_mission].
  destruct (decide (t = self)) as [->|Hne].
  - unfold mission, wake_up. rewrite Ht. by destruct (decide (self ∈ woken p)).
  - by rewrite mission_other_threads.
Qed.

Lemma asleep_alone p self t n :
  threads p !! t = Some (Blocked n) → t ∉ woken p → dom (threads p) = {[t]} →
  mission self p = p.
Proof.
  intros Ht Hn Hdom. unfold mission.
  destruct (decide (self = t)) as [->|Hne].
  - rewrite Ht. unfold wake_up. by destruct (decide (t ∈ woken p)).
  - assert (threads p !! self = None) as ->; [|done].
    apply not_elem_of_dom. rewrite Hdom. set_solver.
Qed.

(** X9.  A wake-up of [submit] can be lost.  [submit] notifies [task_cv]
    without holding [lok]: a worker that has found the predicate of
    [task_cv.wait] false and is not yet asleep is not unblocked by the
    call; it goes to sleep with the task queued and the predicate true,
    and no step of any worker wakes it: alone in the branch, it leaves
    the task in the queue until another notification or a spurious
    wake-up.  One call of [submit] unblocks at most one worker, one that
    was asleep, and under the blocking strategy it does unblock one if
    some sleeper was not yet unblocked. *)
Theorem submit_wake_up_can_be_lost :
  ∀ p T f fs t n ts,
    threads p !! t = Some (Dozing n) →
    let p1 := pool_submit T f fs p in
    let p2 := mission t p1 in
    let p3 := run (steps ts) p2 in
    0 < num_tasks (wb p1)
    ∧ task_cv_pred (wb p1) = true
    ∧ threads p2 !! t = Some (Blocked n) ∧ (t ∉ woken p2)
    ∧ threads p3 !! t = Some (Blocked n) ∧ (t ∉ woken p3)
    ∧ (dom (threads p) = {[t]} → p3 = p2)
    ∧ (size (woken p1 ∖ woken p) ≤ 1)%nat
    ∧ woken p1 ∖ woken p ⊆ threads_in is_blocked p
    ∧ (wait_strategy (wb p) = blocking →
       threads_in is_blocked p ⊈ woken p → woken p1 ⊈ woken p).
Proof.
  intros p T f fs t n ts Ht p1 p2 p3.
  assert (Hlen : 0 < num_tasks (wb p1)).
  { change (wb p1) with (submit T f fs (wb p)).1. rewrite num_tasks_submit.
    unfold num_tasks, TaskQueue.getLength. lia. }
  assert (Ht1 : threads p1 !! t = Some (Dozing n)) by exact Ht.
  assert (Hp2 : p2 = goto t (Blocked n) (set_woken (woken p1 ∖ {[t]}) p1)).
  { unfold p2, mission. by rewrite Ht1. }
  assert (Ht2 : threads p2 !! t = Some (Blocked n)).
  { rewrite Hp2. cbn [threads goto set_woken]. apply lookup_insert_eq. }
  assert (Hw2 : t ∉ woken p2).
  { rewrite Hp2. cbn [woken goto set_woken]. set_solver. }
  assert (Hrun : ∀ q, threads q !! t = Some (Blocked n) → t ∉ woken q →
                      threads (run (steps ts) q) !! t = Some (Blocked n)
                      ∧ (t ∉ woken (run (steps ts) q))
                      ∧ (dom (threads q) = {[t]} → run (steps ts) q = q)).
  { clear. induction ts as [|self ts IH]; intros q Hq Hn; [done|].
    change (run (steps (self :: ts)) q) with (run (steps ts) (mission self q)).
    destruct (asleep_stays q self t n Hq Hn) as [Hq' Hn'].
    destruct (IH _ Hq' Hn') as (I1 & I2 & I3).
    split_and!; [done|done|]. intros Hdom.
    rewrite (asleep_alone q self t n Hq Hn Hdom) in *. by apply I3. }
  destruct (Hrun p2 Ht2 Hw2) as (Ht3 & Hw3 & Halone).
  assert (Hdom2 : dom (threads p2) = dom (threads p)).
  { rewrite Hp2. cbn [threads goto set_woken]. rewrite dom_insert_L.
    change (threads p1) with (threads p).
    apply elem_of_dom_2 in Ht. set_solver. }
  assert (Hone : (size (woken p1 ∖ woken p) ≤ 1)%nat
                 ∧ woken p1 ∖ woken p ⊆ threads_in is_blocked p
                 ∧ (wait_strategy (wb p) = blocking →
                    threads_in is_blocked p ⊈ woken p → woken p1 ⊈ woken p)).
  { unfold p1, pool_submit, emit, submit, when_blocking.
    cbn [woken fst snd wb set_wb threads_in threads picks].
    assert (Hs : wait_strategy
                   match T with
                   | normal => set_tq (TaskQueue.push_back (wrapped f) (tq (wb p))) (wb p)
                   | urgent => set_tq (TaskQueue.push_front (wrapped f) (tq (wb p))) (wb p)
                   | sequence =>
                       set_tq (TaskQueue.push_back (rexec (f :: fs)) (tq (wb p))) (wb p)
                   end = wait_strategy (wb p)) by (by destruct T).
    rewrite Hs. clear Hs.
    destruct (is_blocking (wait_strategy (wb p))) eqn:Hb; cbn [foldl].
    - destruct (deliver_notify_one (threads_in is_blocked p) (woken p, picks p))
        as (H1 & H2 & H3).
      split_and!; [exact H1|exact H2|intros _; exact H3].
    - cbn [fst]. split_and!.
      + assert (woken p ∖ woken p = ∅) as -> by set_solver. rewrite size_empty. lia.
      + set_solver.
      + intros Hbl. by rewrite Hbl in Hb. }
  split_and!; try done.
  - unfold task_cv_pred. apply Z.ltb_lt in Hlen. unfold num_tasks in Hlen.
    by rewrite Hlen.
  - intros Hdom. apply Halone. by rewrite Hdom2.
  - apply Hone.
  - apply Hone.
  - apply Hone.
Qed.
End branch_extras.

Lemma workers_are_the_running_threads_witness :
  let p := WorkBranch.run (WorkBranch.steps [0; 0; 0]%nat)
             (WorkBranch.pool_del_worker
                (WorkBranch.pool_new (fn := nat) 2 WorkBranch.lowlatancy)).2 in
  WorkBranch.reachable p
  ∧ WorkBranch.threads p
    = <[0%nat := WorkBranch.Leaving]> (<[1%nat := WorkBranch.LoopHead 0]> ∅)
  ∧ WorkBranch.workers (WorkBranch.wb p) = WorkBranch.threads_in WorkBranch.alive p
  ∧ WorkBranch.num_workers (WorkBranch.wb p)
    = Z.of_nat (size (WorkBranch.threads_in WorkBranch.alive p)).
Proof.
  intros p.
  assert (Hp : WorkBranch.reachable p).
  { apply reachable_run, WorkBranch.reach_del_worker;
      [apply WorkBranch.reach_new|by vm_compute]. }
  split_and!; [exact Hp|by vm_compute|apply (workers_are_the_running_threads p Hp)..].
Defined.

Lemma destructor_wait_ends_witness :
  let p := WorkBranch.pool_submit WorkBranch.normal 7%nat []
             (WorkBranch.pool_new (fn := nat) 2 WorkBranch.balance) in
  WorkBranch.workers_are_alive p
  ∧ WorkBranch.tq (WorkBranch.wb p) = [WorkBranch.wrapped 7%nat]
  ∧ ∃ ts,
      let p' := WorkBranch.run (WorkBranch.steps ts)
                  (WorkBranch.pool_destructor_enter p) in
      WorkBranch.destructor_may_return (WorkBranch.wb p') = true
      ∧ WorkBranch.no_thread_alive p'
      ∧ (∃ k, (k ≤ size (WorkBranch.threads_in WorkBranch.is_popping p))%nat
              ∧ WorkBranch.tq (WorkBranch.wb p')
                = drop k (WorkBranch.tq (WorkBranch.wb p)))
      ∧ (WorkBranch.threads_in WorkBranch.is_popping p = ∅ →
         WorkBranch.tq (WorkBranch.wb p') = WorkBranch.tq (WorkBranch.wb p)).
Proof.
  intros p.
  assert (Hr : WorkBranch.reachable p).
  { apply reachable_submit, WorkBranch.reach_new. }
  assert (Hp : WorkBranch.workers_are_alive p)
    by (by apply reachable_workers_are_alive).
  assert (Hw : WorkBranch.m_is_waiting (WorkBranch.wb p) = false) by (by vm_compute).
  assert (Hl : WorkBranch.lok_free p) by (by vm_compute).
  split_and!; [exact Hp|by vm_compute|].
  apply (destructor_wait_ends p Hp Hw Hl (reachable_blocking_only p Hr)).
Defined.

Lemma submit_wake_up_can_be_lost_witness :
  let p := WorkBranch.run (WorkBranch.steps [0; 0; 0; 0; 0]%nat)
             (WorkBranch.pool_new (fn := nat) 1 WorkBranch.blocking) in
  let p1 := WorkBranch.pool_submit WorkBranch.normal 7%nat [] p in
  let p3 := WorkBranch.run (WorkBranch.steps [0; 0; 0]%nat)
              (WorkBranch.mission 0%nat p1) in
  WorkBranch.reachable p3
  ∧ WorkBranch.threads p !! 0%nat = Some (WorkBranch.Dozing 0)
  ∧ WorkBranch.signals p1 = [WorkBranch.notify_one WorkBranch.task_cv]
  ∧ WorkBranch.tq (WorkBranch.wb p3) = [WorkBranch.wrapped 7%nat]
  ∧ WorkBranch.task_cv_pred (WorkBranch.wb p1) = true
  ∧ WorkBranch.threads p3 !! 0%nat = Some (WorkBranch.Blocked 0)
  ∧ 0%nat ∉ WorkBranch.woken p3.
Proof.
  intros p p1 p3.
  assert (Ht : WorkBranch.threads p !! 0%nat = Some (WorkBranch.Dozing 0))
    by (by vm_compute).
  destruct (submit_wake_up_can_be_lost p WorkBranch.normal 7%nat [] 0%nat 0
              [0; 0; 0]%nat Ht)
    as (_ & Hpred & _ & _ & Hasleep & Hnot & _).
  split_and!; [|exact Ht|by vm_compute|by vm_compute|exact Hpred|exact Hasleep
              |exact Hnot].
  apply reachable_run. apply (WorkBranch.reach_fire (WorkBranch.Step 0%nat)).
  apply reachable_submit, reachable_run, WorkBranch.reach_new.
Defined.
Section queue_extras.
Import TaskQueue.
Context {V : Type}.

Lemma run_call_conserves (st : client V) (c : call V) :
  popped (run_call st c) ++ queue (run_call st c)
  ≡ₚ (popped st ++ queue st) ++ pushed Back [c] ++ pushed Front [c].
Proof.
  destruct c as [x|x|]; simpl.
  - unfold push_back. by rewrite !app_assoc.
  - unfold push_front. rewrite <-Permutation_middle.
    by rewrite (Permutation_app_comm _ [x]).
  - rewrite ?app_nil_r. destruct (queue st) as [|v rest]; simpl;
      rewrite ?app_nil_r; [done|].
    by rewrite <-app_assoc.
Qed.

(** X10.  The queue neither loses nor duplicates a value: after any
    sequence of [push_back], [push_front] and [try_pop] on a new queue,
    the values handed out together with the values still queued are, up to
    order, exactly the values pushed; so [getLength] is the number of
    pushes minus the number of successful pops. *)
Theorem taskQueue_conserves_values :
  ∀ cs : list (call V),
    let st := run cs (Client [] []) in
    popped st ++ queue st ≡ₚ pushed Back cs ++ pushed Front cs
    ∧ getLength (queue st)
      = Z.of_nat (length (pushed Back cs)) + Z.of_nat (length (pushed Front cs))
        - Z.of_nat (length (popped st)).
Proof.
  intros cs st.
  assert (Hperm : popped st ++ queue st ≡ₚ pushed Back cs ++ pushed Front cs).
  { subst st. induction cs as [|c cs IH] using rev_ind; [done|].
    rewrite run_snoc, run_call_conserves, IH, !pushed_app.
    rewrite <-!app_assoc. apply Permutation_app_head.
    rewrite !app_assoc. apply Permutation_app_tail, Permutation_app_comm. }
  split; [done|].
  apply Permutation_length in Hperm. rewrite !length_app in Hperm.
  unfold getLength. lia.
Qed.
End queue_extras.

(** ** Further properties of the workspace *)

Section workspace_extras.
Import Workspace.
Context {fn : Type}.
Implicit Types (w : workspace fn) (l : list (addr * WorkBranch.workbranch fn)).
Implicit Types (b s : addr).

Lemma find_first_app_new b obj l it :
  b ∉ l.*1 → find_first b (l ++ [(b, obj)]) it = Some (it + length l)%nat.
Proof.
  revert it. induction l as [|up l IH]; intros it Hn; simpl.
  - rewrite Nat.eqb_refl. f_equal. lia.
  - rewrite fmap_cons, not_elem_of_cons in Hn. destruct Hn as [Hne Hn].
    assert ((up.1 =? b)%nat = false) as -> by (apply Nat.eqb_neq; congruence).
    rewrite IH by done. f_equal. lia.
Qed.

(** X11.  [attach] of a branch that is not yet in the list, followed by
    [detach] of the handle just returned, gives back the same address and
    object and leaves the branch list and the supervisors as they were;
    the cursor is not put back where it was but on the first branch. *)
Theorem attach_detach_round_trip :
  ∀ ndebug b obj w,
    b ≠ nullptr →
    b ∉ (m_branchList w).*1 →
    ∃ w1,
      attach ndebug b obj w = Returns (w1, b)
      ∧ (detach b w1).1 = Some (b, obj)
      ∧ m_branchList (detach b w1).2 = m_branchList w
      ∧ m_superMap (detach b w1).2 = m_superMap w
      ∧ cur (detach b w1).2 = begin_ (m_branchList w).
Proof.
  intros ndebug b obj w Hb Hnew.
  set (w1 := WS (begin_ (m_branchList w ++ [(b, obj)]))
                (m_branchList w ++ [(b, obj)]) (m_superMap w)).
  exists w1. split.
  - unfold attach, assert.
    assert ((b =? nullptr)%nat = false) as -> by (by apply Nat.eqb_neq).
    simpl. by destruct ndebug.
  - pose proof (find_first_app_new b obj (m_branchList w) 0 Hnew) as Hf.
    simpl in Hf.
    rewrite (detach_found b w1 (length (m_branchList w)) Hf). simpl.
    assert (delete (length (m_branchList w)) (m_branchList w ++ [(b, obj)])
            = m_branchList w) as ->.
    { rewrite delete_take_drop, take_app_length.
      rewrite drop_ge by (rewrite length_app; simpl; lia). by rewrite app_nil_r. }
    rewrite length_app. simpl.
    rewrite decide_True by lia.
    split_and!; try done.
    by rewrite lookup_app_r, Nat.sub_diag by lia.
Qed.

(** X12.  [attach] of a supervisor whose address is no key of the map,
    followed by [detach] of the handle returned, gives back the same
    object and leaves the workspace exactly as it was. *)
Theorem attach_detach_supervisor_round_trip :
  ∀ ndebug s obj w,
    s ≠ nullptr →
    m_superMap w !! s = None →
    ∃ w1,
      attach_supervisor ndebug s obj w = Returns (w1, s)
      ∧ m_superMap w1 !! s = Some obj
      ∧ detach_supervisor s w1 = (Some obj, w).
Proof.
  intros ndebug s obj w Hs Hnew. eexists. split_and!.
  - unfold attach_supervisor, assert. rewrite Hnew.
    assert ((s =? nullptr)%nat = false) as -> by (by apply Nat.eqb_neq).
    simpl. by destruct ndebug.
  - simpl. apply lookup_insert_eq.
  - unfold detach_supervisor. simpl. rewrite lookup_insert_eq.
    rewrite delete_insert_eq, delete_id by done. by destruct w.
Qed.

Lemma total_tasks_insert l i up up' :
  l !! i = Some up →
  total_tasks (<[i := up']> l)
  = total_tasks l - WorkBranch.num_tasks up.2 + WorkBranch.num_tasks up'.2.
Proof.
  revert i. induction l as [|e l IH]; intros [|i] Hi; simpl in *; try done.
  - injection Hi as ->. lia.
  - rewrite (IH i Hi). lia.
Qed.

Lemma fmap_fst_insert l i up up' :
  l !! i = Some up → up'.1 = up.1 → (<[i := up']> l).*1 = l.*1.
Proof.
  intros Hi He. rewrite list_fmap_insert, He.
  apply list_insert_id. by rewrite list_lookup_fmap, Hi.
Qed.

(** X13.  A [submit] that returns has put the task in the queue of exactly
    one branch, the one the cursor stood on or the one it now stands on:
    the addresses in the list and the supervisors are as before, one
    branch has one more queued task, and all others are untouched. *)
Theorem submit_enqueues_once :
  ∀ ndebug T f fs w w',
    submit ndebug T f fs w = Returns w' →
    ∃ i up,
      m_branchList w !! i = Some up
      ∧ (i = cur w ∨ i = cur w')
      ∧ m_branchList w' = <[i := (up.1, (WorkBranch.submit T f fs up.2).1)]> (m_branchList w)
      ∧ (m_branchList w').*1 = (m_branchList w).*1
      ∧ total_tasks (m_branchList w') = total_tasks (m_branchList w) + 1
      ∧ m_superMap w' = m_superMap w.
Proof.
  intros ndebug T f fs w w' Hrun.
  destruct (m_branchList w !! cur w) as [A|] eqn:HA.
  - destruct (m_branchList w !! forward (m_branchList w) (cur w)) as [B|] eqn:HB.
    + rewrite (submit_runs _ _ _ _ _ _ _ HA HB) in Hrun. injection Hrun as <-.
      destruct (WorkBranch.num_tasks B.2 <? WorkBranch.num_tasks A.2);
        cbn [m_branchList cur m_superMap].
      * exists (forward (m_branchList w) (cur w)), B.
        split_and!; try done; [by right|by apply (fmap_fst_insert _ _ B)|].
        rewrite (total_tasks_insert _ _ _ _ HB).
        pose proof (num_tasks_submit T f fs B.2) as Hn.
        unfold WorkBranch.submit in Hn. cbn [fst snd] in Hn |- *. lia.
      * exists (cur w), A.
        split_and!; try done; [by left|by apply (fmap_fst_insert _ _ A)|].
        rewrite (total_tasks_insert _ _ _ _ HA).
        pose proof (num_tasks_submit T f fs A.2) as Hn.
        unfold WorkBranch.submit in Hn. cbn [fst snd] in Hn |- *. lia.
    + unfold submit, assert in Hrun. cbv zeta in Hrun. rewrite HA, HB in Hrun.
      by repeat case_match.
  - unfold submit, assert in Hrun. cbv zeta in Hrun. rewrite HA in Hrun.
    by repeat case_match.
Qed.




Lemma spread_all k l : spread k (length l) l → spread (k + 1) 0 l.
Proof.
  intros Hs i up Hi. rewrite (Hs i up Hi).
  apply lookup_lt_Some in Hi.
  by assert ((i <? length l)%nat = true) as -> by (apply Nat.ltb_lt; lia).
Qed.

Lemma submit_all_round ndebug T k fs :
  ∀ w,
    (cur w < length (m_branchList w))%nat →
    (cur w + length fs = length (m_branchList w))%nat →
    spread k (cur w) (m_branchList w) →
    ∃ w', submit_all ndebug T fs w = Returns w'
          ∧ cur w' = begin_ (m_branchList w')
          ∧ spread (k + 1) 0 (m_branchList w')
          ∧ (m_branchList w').*1 = (m_branchList w).*1.
Proof.
  induction fs as [|f fs IH]; intros w Hlt Hlen Hs; [simpl in Hlen; lia|].
  destruct (lookup_lt_is_Some_2 _ _ Hlt) as [A HA].
  destruct (lookup_lt_is_Some_2 _ _ (forward_lt _ _ Hlt)) as [B HB].
  pose proof (Hs _ _ HA) as HnA. rewrite Nat.ltb_irrefl in HnA.
  pose proof (Hs _ _ HB) as HnB.
  assert ((WorkBranch.num_tasks B.2 <? WorkBranch.num_tasks A.2) = false) as Hcmp.
  { apply Z.ltb_ge. rewrite HnA, HnB. case_match; lia. }
  set (l1 := <[cur w := (A.1, (WorkBranch.submit T f [] A.2).1)]> (m_branchList w)).
  set (w1 := WS (forward (m_branchList w) (cur w)) l1 (m_superMap w)).
  assert (Hrun : submit ndebug T f [] w = Returns w1).
  { by rewrite (submit_runs _ _ _ _ _ _ _ HA HB), Hcmp. }
  assert (Hs1 : spread k (S (cur w)) l1).
  { intros i up Hi. unfold l1 in Hi.
    destruct (decide (i = cur w)) as [->|Hne].
    - rewrite list_lookup_insert_eq in Hi by done. injection Hi as <-.
      assert ((cur w <? S (cur w))%nat = true) as -> by (apply Nat.ltb_lt; lia).
      rewrite <-HnA. exact (num_tasks_submit T f [] A.2).
    - rewrite list_lookup_insert_ne in Hi by done. rewrite (Hs _ _ Hi).
      destruct (i <? cur w)%nat eqn:E1;
        [apply Nat.ltb_lt in E1|apply Nat.ltb_ge in E1].
      + by assert ((i <? S (cur w))%nat = true) as -> by (apply Nat.ltb_lt; lia).
      + by assert ((i <? S (cur w))%nat = false) as -> by (apply Nat.ltb_ge; lia). }
  assert (Hl1 : length l1 = length (m_branchList w))
    by (unfold l1; apply length_insert).
  assert (Ha1 : l1.*1 = (m_branchList w).*1)
    by (unfold l1; by apply (fmap_fst_insert _ _ A)).
  cbn [submit_all]. rewrite Hrun. cbn [length] in Hlen.
  destruct fs as [|f' fs'].
  - exists w1. cbn [submit_all length] in *.
    assert (S (cur w) = length (m_branchList w)) as Hend by lia.
    split_and!; [done| |apply spread_all; cbn [w1 m_branchList];
                        by rewrite Hl1, <-Hend|done].
    cbn [w1 cur m_branchList]. unfold forward, end_.
    by assert ((S (cur w) =? length (m_branchList w))%nat = true) as ->
        by (apply Nat.eqb_eq; lia).
  - assert (Hfw : forward (m_branchList w) (cur w) = S (cur w)).
    { unfold forward, end_. cbn [length] in Hlen.
      by assert ((S (cur w) =? length (m_branchList w))%nat = false) as ->
          by (apply Nat.eqb_neq; lia). }
    destruct (IH w1) as (w' & Hall & Hcur & Hsp & Haddr).
    + cbn [w1 cur m_branchList]. rewrite Hfw, Hl1. cbn [length] in Hlen. lia.
    + cbn [w1 cur m_branchList]. rewrite Hfw, Hl1. cbn [length] in *. lia.
    + cbn [w1 cur m_branchList]. by rewrite Hfw.
    + exists w'. split_and!; [done..|]. by rewrite Haddr.
Qed.

(** X15.  Round robin on equally loaded branches: with the cursor on the
    first of [n] branches that all have [k] queued tasks, [n] calls of
    [submit] made one after the other, with no worker taking a task in
    between, all return, leave every branch with [k + 1] queued tasks,
    and bring the cursor back to the first branch. *)
Theorem submit_round_robin :
  ∀ ndebug T k fs w,
    m_branchList w ≠ [] →
    cur w = begin_ (m_branchList w) →
    spread k 0 (m_branchList w) →
    length fs = length (m_branchList w) →
    ∃ w', submit_all ndebug T fs w = Returns w'
          ∧ cur w' = begin_ (m_branchList w')
          ∧ spread (k + 1) 0 (m_branchList w')
          ∧ (m_branchList w').*1 = (m_branchList w).*1
          ∧ m_superMap w' = m_superMap w.
Proof.
  intros ndebug T k fs w Hne Hcur Hs Hlen.
  assert (Hpos : (0 < length (m_branchList w))%nat).
  { destruct (m_branchList w); [done|simpl; lia]. }
  destruct (submit_all_round ndebug T k fs w) as (w' & Hall & ? & ? & ?).
  - rewrite Hcur. exact Hpos.
  - rewrite Hcur, Hlen. done.
  - by rewrite Hcur.
  - exists w'. split_and!; try done.
    clear -Hall. revert w Hall.
    induction fs as [|f fs IH]; intros w Hall; cbn [submit_all] in Hall.
    + by injection Hall as <-.
    + destruct (submit ndebug T f [] w) as [w1| | |] eqn:Hrun; try done.
      rewrite (IH _ Hall). unfold submit, assert in Hrun.
      repeat case_match; try done; by injection Hrun as <-.
Qed.
End workspace_extras.

Lemma attach_detach_round_trip_witness :
  let bA := WorkBranch.new (fn := nat) 1 WorkBranch.lowlatancy in
  let bB := WorkBranch.new (fn := nat) 2 WorkBranch.balance in
  let w := Workspace.WS 0 [(1%nat, bA)] ∅ in
  ∃ w1,
    Workspace.attach false 2%nat bB w = Returns (w1, 2%nat)
    ∧ (Workspace.detach 2%nat w1).1 = Some (2%nat, bB)
    ∧ Workspace.m_branchList (Workspace.detach 2%nat w1).2 = Workspace.m_branchList w
    ∧ Workspace.m_superMap (Workspace.detach 2%nat w1).2 = Workspace.m_superMap w
    ∧ Workspace.cur (Workspace.detach 2%nat w1).2
      = Workspace.begin_ (Workspace.m_branchList w).
Proof.
  intros bA bB w.
  apply (attach_detach_round_trip false 2%nat bB w); [done|].
  change ((Workspace.m_branchList w).*1) with [1%nat].
  by intros ?%list_elem_of_singleton.
Defined.

Lemma attach_detach_supervisor_round_trip_witness :
  let obj := Supervisor.Sup false 1 4 500 500 [] in
  let w := Workspace.WS (fn := nat) 0 [] (<[5%nat := Supervisor.Sup false 0 2 50 50 []]> ∅) in
  ∃ w1,
    Workspace.attach_supervisor false 3%nat obj w = Returns (w1, 3%nat)
    ∧ Workspace.m_superMap w1 !! 3%nat = Some obj
    ∧ Workspace.detach_supervisor 3%nat w1 = (Some obj, w).
Proof.
  intros obj w.
  apply (attach_detach_supervisor_round_trip false 3%nat obj w); [done|].
  by vm_compute.
Defined.

Lemma submit_enqueues_once_witness :
  let bA := Nat.iter 2 (λ b, (WorkBranch.submit WorkBranch.normal 0%nat [] b).1)
              (WorkBranch.new (fn := nat) 1 WorkBranch.lowlatancy) in
  let bB := WorkBranch.new (fn := nat) 1 WorkBranch.lowlatancy in
  let w := Workspace.WS 0 [(1%nat, bA); (2%nat, bB)] ∅ in
  let w' := Workspace.WS 1 [(1%nat, bA);
                            (2%nat, (WorkBranch.submit WorkBranch.urgent 9%nat [] bB).1)] ∅ in
  Workspace.submit false WorkBranch.urgent 9%nat [] w = Returns w'
  ∧ Workspace.total_tasks (Workspace.m_branchList w) = 2
  ∧ ∃ i up,
      Workspace.m_branchList w !! i = Some up
      ∧ (i = Workspace.cur w ∨ i = Workspace.cur w')
      ∧ Workspace.m_branchList w'
        = <[i := (up.1, (WorkBranch.submit WorkBranch.urgent 9%nat [] up.2).1)]>
            (Workspace.m_branchList w)
      ∧ (Workspace.m_branchList w').*1 = (Workspace.m_branchList w).*1
      ∧ Workspace.total_tasks (Workspace.m_branchList w')
        = Workspace.total_tasks (Workspace.m_branchList w) + 1
      ∧ Workspace.m_superMap w' = Workspace.m_superMap w.
Proof.
  intros bA bB w w'.
  assert (Hrun : Workspace.submit false WorkBranch.urgent 9%nat [] w = Returns w')
    by (by vm_compute).
  split_and!; [exact Hrun|by vm_compute|].
  apply (submit_enqueues_once false WorkBranch.urgent 9%nat [] w w' Hrun).
Defined.


Lemma submit_round_robin_witness :
  let bA := WorkBranch.new (fn := nat) 1 WorkBranch.lowlatancy in
  let w := Workspace.WS 0 [(1%nat, bA); (2%nat, bA); (3%nat, bA)] ∅ in
  Workspace.spread 0 0 (Workspace.m_branchList w)
  ∧ ∃ w', Workspace.submit_all false WorkBranch.normal [7; 8; 9]%nat w = Returns w'
          ∧ Workspace.cur w' = Workspace.begin_ (Workspace.m_branchList w')
          ∧ Workspace.spread (0 + 1) 0 (Workspace.m_branchList w')
          ∧ (Workspace.m_branchList w').*1 = (Workspace.m_branchList w).*1
          ∧ Workspace.m_superMap w' = Workspace.m_superMap w.
Proof.
  intros bA w.
  assert (Hs : Workspace.spread 0 0 (Workspace.m_branchList w)).
  { intros [|[|[|i]]] up [= <-]; by vm_compute. }
  split; [exact Hs|].
  by apply (submit_round_robin false WorkBranch.normal 0 [7; 8; 9]%nat w).
Defined.

(** ** Further properties of the supervisor *)

Section supervisor_extras.
Import Supervisor.
Context {fn : Type}.
Implicit Types (s : supervisor) (b : WorkBranch.workbranch fn).
Implicit Types (heap : gmap addr (WorkBranch.workbranch fn)).

Lemma bounds_serve s rs :
  m_wmin (foldl serve s rs) = m_wmin s ∧ m_wmax (foldl serve s rs) = m_wmax s.
Proof.
  revert s. induction rs as [|r rs IH]; intros s; [done|].
  simpl. destruct (IH (serve s r)) as [-> ->]. by destruct r.
Qed.

Lemma mission_branch_bounded ndebug s b :
  0 ≤ m_wmin s → in_size_t (m_wmax s) →
  WorkBranch.num_workers b ≤ m_wmax s →
  in_size_t (WorkBranch.num_tasks b) →
  ∃ b' calls,
    mission_branch ndebug s b = Returns (b', calls)
    ∧ WorkBranch.tq b' = WorkBranch.tq b
    ∧ WorkBranch.num_workers b ≤ WorkBranch.num_workers b' ≤ m_wmax s
    ∧ (0 < WorkBranch.num_tasks b →
       Z.min (m_wmax s) (WorkBranch.num_tasks b) ≤ WorkBranch.num_workers b').
Proof.
  intros Hn0 [Hm0 Hm1] Hle [Ht0 Ht1].
  unfold mission_branch.
  set (workers := WorkBranch.num_workers b) in *.
  set (tasks := WorkBranch.num_tasks b) in *.
  assert (Hw0 : 0 ≤ workers) by (unfold workers, WorkBranch.num_workers; lia).
  destruct (0 <? tasks) eqn:Hpos; [apply Z.ltb_lt in Hpos|apply Z.ltb_ge in Hpos].
  - assert (Hassert : ∀ k : outcome (WorkBranch.workbranch fn * list call),
               assert ndebug (workers <=? m_wmax s) k = k).
    { intros k. unfold assert. destruct ndebug; [done|].
      by assert ((workers <=? m_wmax s) = true) as -> by lia. }
    rewrite Hassert, iter_add_worker_log.
    assert (Hn : Z.min (to_size_t (m_wmax s - workers))
                   (if workers <? tasks then to_size_t (tasks - workers) else 0)
                 = Z.min (m_wmax s - workers) (Z.max 0 (tasks - workers))).
    { rewrite (to_size_t_id (m_wmax s - workers)) by (unfold SIZE_MAX in *; lia).
      destruct (workers <? tasks) eqn:Hlt;
        [apply Z.ltb_lt in Hlt|apply Z.ltb_ge in Hlt].
      - rewrite to_size_t_id by (unfold SIZE_MAX in *; lia). lia.
      - lia. }
    rewrite Hn. eexists _, _. split; [reflexivity|].
    destruct (iter_add_worker
                (Z.to_nat (Z.min (m_wmax s - workers) (Z.max 0 (tasks - workers)))) b)
      as (H1 & _ & H3 & _).
    split_and!; [done|fold workers in H1; lia..].
  - destruct (m_wmin s <? workers) eqn:Hmin;
      [apply Z.ltb_lt in Hmin|apply Z.ltb_ge in Hmin].
    + assert (Hne : WorkBranch.workers b ≠ ∅).
      { intros He. unfold workers, WorkBranch.num_workers in *.
        rewrite He, size_empty in Hmin. lia. }
      unfold WorkBranch.del_worker. rewrite decide_False by done.
      eexists _, _. split; [reflexivity|].
      change (WorkBranch.num_workers
                (WorkBranch.set_decline (to_size_t (WorkBranch.decline b + 1)) b))
        with workers.
      split_and!; [done|lia..].
    + eexists _, _. split; [reflexivity|]. split_and!; [done|lia..].
Qed.

Lemma mission_loop_bounded ndebug s ptrs :
  0 ≤ m_wmin s → in_size_t (m_wmax s) →
  ∀ heap log,
    (∀ ptr, ptr ∈ ptrs →
       ∃ b, heap !! ptr = Some b
            ∧ WorkBranch.num_workers b ≤ m_wmax s
            ∧ in_size_t (WorkBranch.num_tasks b)) →
    ∃ heap' log',
      mission_loop ndebug s ptrs heap log = (heap', log', Returns ())
      ∧ (∀ ptr, heap !! ptr = None → heap' !! ptr = None)
      ∧ (∀ ptr b, heap !! ptr = Some b →
           ∃ b', heap' !! ptr = Some b'
                 ∧ WorkBranch.tq b' = WorkBranch.tq b
                 ∧ WorkBranch.num_workers b ≤ WorkBranch.num_workers b'
                 ∧ (ptr ∈ ptrs →
                    WorkBranch.num_workers b' ≤ m_wmax s
                    ∧ (0 < WorkBranch.num_tasks b →
                       Z.min (m_wmax s) (WorkBranch.num_tasks b)
                       ≤ WorkBranch.num_workers b'))
                 ∧ (ptr ∉ ptrs → b' = b)).
Proof.
  intros Hn0 Hm. induction ptrs as [|ptr rest IH]; intros heap log Hok.
  - exists heap, log. split_and!; [done..|].
    intros p b Hp. exists b. split_and!; [done|done|lia| |done].
    by intros ?%elem_of_nil.
  - destruct (Hok ptr) as (b0 & Hb0 & Hw & Ht); [apply list_elem_of_here|].
    destruct (mission_branch_bounded ndebug s b0 Hn0 Hm Hw Ht)
      as (b1 & calls & Hrun & Htq & Hwk & Hmin).
    assert (Htasks : WorkBranch.num_tasks b1 = WorkBranch.num_tasks b0)
      by (unfold WorkBranch.num_tasks; by rewrite Htq).
    cbn [mission_loop]. rewrite Hb0, Hrun.
    destruct (IH (<[ptr := b1]> heap) (log ++ ((λ c, (ptr, c)) <$> calls)))
      as (heap' & log' & Hloop & Hnone & Hsome).
    { intros p Hp. destruct (decide (p = ptr)) as [->|Hne].
      - exists b1. rewrite lookup_insert_eq, Htasks. split_and!; [done|lia|done].
      - rewrite lookup_insert_ne by done. apply Hok. by right. }
    exists heap', log'. split_and!; [done| |].
    + intros p Hp. apply Hnone. rewrite lookup_insert_ne; [done|].
      intros ->. congruence.
    + intros p b Hp. destruct (decide (p = ptr)) as [->|Hne].
      * assert (b = b0) as -> by congruence.
        destruct (Hsome ptr b1) as (b' & Hb' & Htq' & Hle' & Hin & Hout);
          [apply lookup_insert_eq|].
        exists b'. split_and!; [done|congruence|lia| |].
        -- intros _. split; [|intros Hpos; specialize (Hmin Hpos); lia].
           destruct (decide (ptr ∈ rest)) as [Hr|Hr].
           ++ by apply Hin.
           ++ rewrite (Hout Hr). lia.
        -- intros Hout'. exfalso. apply Hout'. apply list_elem_of_here.
      * destruct (Hsome p b) as (b' & Hb' & Htq' & Hle' & Hin & Hout);
          [by rewrite lookup_insert_ne|].
        exists b'. split_and!; [done..| |].
        -- intros [?|?]%elem_of_cons; [done|]. by apply Hin.
        -- intros Hout'. apply Hout. intros ?. apply Hout'. by right.
Qed.

(** X16.  One tick of a supervisor built by the constructor and
    configured by any calls of [add_super], [suspend] and [proceed], over
    branches that have no more than [wmax] workers, taken with no worker
    stepping in between: the loop over the branches runs to its end
    (no assertion fails, [del_worker] does not throw), no queue is
    touched, no branch loses a worker from its map, every supervised
    branch still has no more than [wmax] workers, a supervised branch
    with queued tasks ends with at least [min(wmax, tasks)] workers, and
    the branches that are not supervised are as before. *)
Theorem mission_tick_keeps_bounds :
  ∀ ndebug wmin wmax tout s0 rs heap,
    new ndebug wmin wmax tout = Returns s0 →
    let s := foldl serve s0 rs in
    (∀ ptr, ptr ∈ m_branches s →
       ∃ b, heap !! ptr = Some b
            ∧ WorkBranch.num_workers b ≤ m_wmax s
            ∧ in_size_t (WorkBranch.num_tasks b)) →
    ∃ heap' log,
      mission_tick ndebug s heap = (heap', log, Returns ())
      ∧ (∀ ptr, heap !! ptr = None → heap' !! ptr = None)
      ∧ (∀ ptr b, heap !! ptr = Some b →
           ∃ b', heap' !! ptr = Some b'
                 ∧ WorkBranch.tq b' = WorkBranch.tq b
                 ∧ WorkBranch.num_workers b ≤ WorkBranch.num_workers b'
                 ∧ (ptr ∈ m_branches s →
                    WorkBranch.num_workers b' ≤ m_wmax s
                    ∧ (0 < WorkBranch.num_tasks b →
                       Z.min (m_wmax s) (WorkBranch.num_tasks b)
                       ≤ WorkBranch.num_workers b'))
                 ∧ (ptr ∉ m_branches s → b' = b)).
Proof.
  intros ndebug wmin wmax tout s0 rs heap Hnew s Hok.
  destruct (bounds_serve s0 rs) as [Hmin Hmax]. fold s in Hmin, Hmax.
  apply new_Returns in Hnew.
  assert (Hn0 : 0 ≤ m_wmin s).
  { rewrite Hmin, Hnew. cbn [m_wmin]. apply to_size_t_range. }
  assert (Hm : in_size_t (m_wmax s)).
  { rewrite Hmax, Hnew. cbn [m_wmax]. apply to_size_t_range. }
  apply (mission_loop_bounded ndebug s (m_branches s) Hn0 Hm heap [] Hok).
Qed.
End supervisor_extras.

Lemma mission_tick_keeps_bounds_witness :
  let s0 := Supervisor.Sup false 1 4 500 500 [] in
  let s := foldl Supervisor.serve s0 [Supervisor.AddSuper 1%nat] in
  let b := Nat.iter 3 (λ b, (WorkBranch.submit WorkBranch.normal 0%nat [] b).1)
             (WorkBranch.new (fn := nat) 1 WorkBranch.lowlatancy) in
  let heap : gmap Supervisor.addr (WorkBranch.workbranch nat) := {[1%nat := b]} in
  Supervisor.new false 1 4 500 = Returns s0
  ∧ WorkBranch.num_workers b = 1
  ∧ WorkBranch.num_tasks b = 3
  ∧ ∃ heap' log b',
      Supervisor.mission_tick false s heap = (heap', log, Returns ())
      ∧ heap' !! 1%nat = Some b'
      ∧ WorkBranch.tq b' = WorkBranch.tq b
      ∧ 3 ≤ WorkBranch.num_workers b' ≤ 4.
Proof.
  intros s0 s b heap.
  assert (Hnew : Supervisor.new false 1 4 500 = Returns s0) by reflexivity.
  assert (Hw : WorkBranch.num_workers b = 1) by (by vm_compute).
  assert (Ht : WorkBranch.num_tasks b = 3) by (by vm_compute).
  assert (Hb : heap !! 1%nat = Some b) by apply lookup_singleton_eq.
  split_and!; [exact Hnew|exact Hw|exact Ht|].
  destruct (mission_tick_keeps_bounds false 1 4 500 s0 [Supervisor.AddSuper 1%nat]
              heap Hnew)
    as (heap' & log & Hrun & _ & Hsome).
  - intros ptr ->%list_elem_of_singleton. exists b.
    split_and!; [exact Hb|rewrite Hw; by vm_compute|].
    rewrite Ht. split; by vm_compute.
  - destruct (Hsome 1%nat b Hb) as (b' & Hb' & Htq & _ & Hin & _).
    destruct Hin as [Hmax Hmin]; [apply list_elem_of_here|].
    specialize (Hmin ltac:(rewrite Ht; lia)). rewrite Ht in Hmin.
    exists heap', log, b'. split_and!; [exact Hrun|exact Hb'|exact Htq| |exact Hmax].
    change (Supervisor.m_wmax _) with 4 in Hmin. lia.
Defined.
